(** * Mvn: multivariate normal distributions in eigen-factored form

    A shallow embedding of [mvar.py] and [square.py].  Scalars live in an
    arbitrary [numClosedFieldType] [C] (the complex algebraic numbers [algC]
    are one), so the embedding is exact arithmetic: numpy's floating point is
    not modelled, numpy's tolerance-based comparisons are ([mx_close]).
    A distribution is the triple (mean, var, vectors) of the Python class,
    with [var] a row of [k] weights and [vectors] a [k x n] matrix whose rows
    are the axes.  [M^t*] is the conjugate transpose [M.H]. *)

Set Warnings "-notation-overridden -ambiguous-paths -deprecated-library-file".
From HB Require Import structures.
From Stdlib Require Import String.
From mathcomp Require Import boot order algebra algC.

Set Implicit Arguments.
Unset Strict Implicit.
Unset Printing Implicit Defensive.

Import GRing.Theory Num.Theory Order.Theory.
Local Open Scope ring_scope.
Local Open Scope sesquilinear_scope.

Section Mvn.

Variable C : numClosedFieldType.

(** ** Tolerances (numpy.isclose / numpy.allclose defaults) *)

Definition rtol : C := (10%:R ^+ 5)^-1.
Definition atol : C := (10%:R ^+ 8)^-1.

(** [numpy.isclose(a, b)]: [|a - b| <= atol + rtol * |b|]. *)
Definition isclose (a b : C) : bool := `|a - b| <= atol + rtol * `|b|.

(** Modelled from the spec: [Matrix.__eq__] (matrix.py, not in the sources)
    is the "tolerance-based equality" of the MatrixOps collaborator; it is
    taken to be [numpy.allclose] with its default tolerances. *)
Definition mx_close m n (A B : 'M[C]_(m, n)) : bool :=
  [forall i, [forall j, isclose (A i j) (B i j)]].

(** Modelled from the spec: [helpers.close(x)] (helpers.py, not in the
    sources) tells whether [x] is within the compression tolerance of zero. *)
Definition close0 (x : C) : bool := isclose x 0.

(** ** The eigensolvers (numpy.linalg.eigh and numpy.linalg.eig)

    External collaborators.  [eigh] returns [(w, v)] with the eigenvectors as
    the columns of [v]; on a Hermitian matrix [v] is unitary and [w] is real.
    [eig], the general solver, carries no contract: no claim below reaches it. *)

Record eigensolver := EigenSolver {
  eigh : forall m, 'M[C]_m -> 'rV[C]_m * 'M[C]_m;
  eig : forall m, 'M[C]_m -> 'rV[C]_m * 'M[C]_m;
  eighP : forall m (H : 'M[C]_m), H^t* = H ->
    [/\ (eigh H).2 \is unitarymx,
        H = (eigh H).2 *m diag_mx (eigh H).1 *m (eigh H).2^t* &
        (eigh H).1 \is a realmx]
}.

Variable E : eigensolver.

(** ** square.py: [square(vectors, var)] *)

Record sqout (n : nat) := SqOut { sk : nat; svar : 'rV[C]_sk; svec : 'M[C]_(sk, n) }.

Definition ones m : 'rV[C]_m := const_mx 1.

(** [var**(-0.5+0j)] on the real weights the code passes: [1 / sqrt var].
    At [0] numpy's complex power gives [nan+nanj]; the field's [0^-1 = 0]
    stands in for it here, and [square_finite] below tells when it is
    reached. *)
Definition rsqrt (x : C) : C := (sqrtC x)^-1.

Definition square m n (X : 'M[C]_(m, n)) (var0 : option 'rV[C]_m) : sqout n :=
  let var := if var0 is Some v then v else ones m in
  let solve := if mx_close var (map_mx (fun x => `|x|) var) then @eigh E else @eig E in
  let vectorsH := X^t* in
  let vectors := diag_mx var *m X in
  if (m == 0)%N || (n == 0)%N then @SqOut n 0 0 0
  else if (n <= m)%N then
    let: (w, v) := solve n (vectorsH *m vectors) in SqOut w (v^t*)
  else
    let Xcov := vectors *m vectorsH in
    let: (Xval, Xvec) := solve m Xcov in
    let d := \row_j Xcov j j in
    SqOut d (diag_mx (map_mx rsqrt d) *m (Xvec^t* *m vectors)).

(** Whether the result of [square] is finite: on the reduced-rank branch a
    zero entry [d_j] of [diag(Xcov)] makes row [j] of [vec] [nan] (it is
    scaled by [0**(-0.5+0j)]), while [var_j = d_j = 0]. *)
Definition square_finite m n (X : 'M[C]_(m, n)) (var0 : option 'rV[C]_m) : bool :=
  let var := if var0 is Some v then v else ones m in
  let vectorsH := X^t* in
  let vectors := diag_mx var *m X in
  let Xcov := vectors *m vectorsH in
  [|| (m == 0)%N, (n == 0)%N, (n <= m)%N | [forall j, Xcov j j != 0]].

(** ** mvar.py: the [Mvar] triple and its derived views *)

Record mvar (n : nat) := Mvar {
  nk : nat;
  var : 'rV[C]_nk;
  vectors : 'M[C]_(nk, n);
  mean : 'rV[C]_n
}.

(** [get_cov]: [vectors.H * diagflat(var) * vectors]. *)
Definition cov n (A : mvar n) : 'M[C]_n :=
  (vectors A)^t* *m diag_mx (var A) *m vectors A.

(** [scaled]: [diagflat(var**(0.5+0j)) * vectors]. *)
Definition scaled n (A : mvar n) : 'M[C]_(nk A, n) :=
  diag_mx (map_mx sqrtC (var A)) *m vectors A.

(** [transform]: [vectors.H * diagflat(var**(0.5+0j)) * vectors]. *)
Definition transform n (A : mvar n) : 'M[C]_n :=
  (vectors A)^t* *m diag_mx (map_mx sqrtC (var A)) *m vectors A.

(** [do_square]: [(self.var, self.vectors) = square(self.scaled)]. *)
Definition do_square n (A : mvar n) : mvar n :=
  let: SqOut _ w v := square (scaled A) None in Mvar w v (mean A).

(** Modelled from the spec: [helpers.sortrows] (helpers.py, not in the
    sources) sorts the surviving rows by ascending variance. *)
Definition kept n (A : mvar n) : seq 'I_(nk A) :=
  sort (fun i j => var A 0 i <= var A 0 j)
       [seq j <- enum 'I_(nk A) | ~~ close0 (var A 0 j)].

(** [stack[~C,:]] followed by [sortrows]: keep the rows whose variance is
    not close to zero, sorted by variance. *)
Definition compress_rows n (A : mvar n) : mvar n :=
  let s := in_tuple (kept A) in
  Mvar (\row_(j < size (kept A)) var A 0 (tnth s j))
       (\matrix_(j < size (kept A), c < n) vectors A (tnth s j) c)
       (mean A).

(** [do_compress].  [C=numpy.array(close(stack[:,0])).squeeze()] is
    zero-dimensional when there is a single row, and [stack[~C,:]] then
    indexes with a 0-d boolean, which inserts an axis instead of selecting
    rows: that case is not followed ([None]).  Otherwise the rows are
    masked and sorted. *)
Definition do_compress n (A : mvar n) : option (mvar n) :=
  if nk A == 1%N then None else Some (compress_rows A).

(** The weight a kept row contributes to [f] of the covariance: zero for a
    row that [do_compress] drops. *)
Definition keepf (f : C -> C) (x : C) : C := if close0 x then 0 else f x.

(** [R] stores, up to the rows [do_compress] drops, the diagonalisation
    [U^t* diag g U]: every function of its variances is read off [g]. *)
Definition rep n (R : mvar n) (U : 'M[C]_n) (g : 'rV[C]_n) : Prop :=
  forall f : C -> C,
    (vectors R)^t* *m diag_mx (map_mx f (var R)) *m vectors R
    = U^t* *m diag_mx (map_mx (keepf f) g) *m U.

(** [Mvar.__init__]: the three fields, already sized by [autostack].  A
    [var] or [mean] argument that is given ([Some]) goes through
    [numpy.asarray(x).squeeze()] and is then indexed with two indices; a
    given one of length one squeezes to a 0-d array and the indexing
    raises [IndexError].  An omitted one is the callable default
    ([numpy.ones], [numpy.zeros]) that [autostack] inflates.  The assertion
    that the variances are real is the next [None] branch.  With
    [do_square] and no [do_compress] (no caller of the module does this) a
    non-finite square is not followed. *)
Definition mvar_init n k (vecs : 'M[C]_(k, n)) (v0 : option 'rV[C]_k)
    (m0 : option 'rV[C]_n) (dsq dcomp : bool) : option (mvar n) :=
  if (isSome v0 && (k == 1)%N) || (isSome m0 && (n == 1)%N) then None
  else
  let v := odflt (ones k) v0 in
  let m := odflt 0 m0 in
  if [forall j, v 0 j \is Num.real] then
    let A := Mvar v vecs m in
    let A' := if dsq then do_square A else A in
    if dcomp then do_compress A'
    else if dsq && ~~ square_finite (scaled A) None then None
    else Some A'
  else None.

(** [Mvar.from_cov]: assert Hermitian, eigendecompose, build without
    squaring (compression on). *)
Definition from_cov n (c : 'M[C]_n) (m : 'rV[C]_n) : option (mvar n) :=
  if mx_close c (c^t*) then
    let: (w, v) := eigh E c in mvar_init (v^t*) (Some w) (Some m) false true
  else None.

(** ** Multiplication: [_rconvert] and [_multipliers]

    The right operand of [A * other] as the Python code can receive it: an
    [Mvar], an array of dimension at least one, or a zero-dimensional array
    (a scalar). *)

Inductive operand (n : nat) : nat -> Type :=
| OpMvar : mvar n -> operand n n
| OpArray m : 'M[C]_(n, m) -> operand n m
| OpScalar : C -> operand n n.

(** The two types [_multipliers] dispatches on: [Matrix] and a 0-d
    [numpy.ndarray]. *)
Inductive converted (n : nat) : nat -> Type :=
| AsMatrix m : 'M[C]_(n, m) -> converted n m
| AsConstant : C -> converted n n.

Definition rconvert n m (o : operand n m) : converted n m :=
  match o in operand _ m return converted n m with
  | OpMvar B => AsMatrix (transform B)
  | OpArray _ M => AsMatrix M
  | OpScalar c => AsConstant n c
  end.

(** [Mvar(mean=Matrix(self.mean)*matrix, vectors=self.scaled*matrix)]: the
    variances take their default, [numpy.ones], and [do_square],
    [do_compress] take theirs, [True]; the mean is given. *)
Definition multipliers n m (A : mvar n) (c : converted n m) : option (mvar m) :=
  match c in converted _ m return option (mvar m) with
  | AsMatrix m M => mvar_init (scaled A *m M) None (Some (mean A *m M)) true true
  | AsConstant c => from_cov (c *: cov A) (c *: mean A)
  end.

(** [Mvar.__mul__]. *)
Definition mvar_mul n m (A : mvar n) (o : operand n m) : option (mvar m) :=
  multipliers A (rconvert o).

(** [Mvar.__pow__] at an integer power [p]: [var**((p-1)/(2+0j))] is the
    principal power, i.e. [(sqrt var)^(p-1)].  At a zero variance numpy's
    complex power gives [1] for the exponent [0], [0] for a positive one and
    [nan+nanj] for a negative one; the product with such a [nan] transform
    is not followed ([None] in [mvar_pow]). *)
Definition pow_transform n (A : mvar n) (p : int) : 'M[C]_n :=
  (vectors A)^t* *m diag_mx (map_mx (fun x => exprz (sqrtC x) (p - 1)) (var A))
    *m vectors A.

Definition mvar_pow n (A : mvar n) (p : int) : option (mvar n) :=
  if (p < 1) && [exists j, var A 0 j == 0] then None
  else mvar_mul A (OpArray (pow_transform A p)).

(** [Mvar.__add__]. *)
Definition mvar_add n (A B : mvar n) : option (mvar n) :=
  from_cov (cov A + cov B) (mean A + mean B).

(** Modelled from the spec: [helpers.paralell] (helpers.py, not in the
    sources) is the resistor-style parallel combination
    [(sum of the items**-1)**-1]; an empty call has no value. *)
Definition paralell n (items : seq (mvar n)) : option (mvar n) :=
  match [seq mvar_pow D (-1) | D <- items] with
  | [::] => None
  | i0 :: rest =>
      obind (fun S => mvar_pow S (-1))
        (foldl (fun acc i => obind (fun a => obind (mvar_add a) i) acc) i0 rest)
  end.

(** [Mvar.blend] ([&]). *)
Definition blend n (mvars : seq (mvar n)) : option (mvar n) := paralell mvars.

(** [Mvar.__eq__]: [Matrix(self.mean)==Matrix(other.mean) and self.cov==other.cov]. *)
Definition mvar_eq n (A B : mvar n) : bool :=
  mx_close (mean A) (mean B) && mx_close (cov A) (cov B).

(** ** [Mvar.sample]

    [numpy.random.randn(n, d)] is passed in as the matrix [Z]. The final
    [numpy.array(data) + self.mean] broadcasts a [N x k] array against a
    length-[d] vector: it needs [k = d], [k = 1] or [d = 1]. *)

Definition at_col N k (X : 'M[C]_(N, k)) (i : 'I_N) (j : nat) : C :=
  if insub j is Some j' then X i j' else 0.

Definition bcast_add N k d (X : 'M[C]_(N, k)) (m : 'rV[C]_d)
    : option {p : nat & 'M[C]_(N, p)} :=
  if [|| k == d, k == 1 | d == 1]%N then
    Some (existT _ (maxn k d)
      (\matrix_(i < N, j < maxn k d)
         (at_col X i (if k == 1 then 0 else j)%N
          + at_col m 0 (if d == 1 then 0 else j)%N)))
  else None.

Definition sample n (A : mvar n) N (Z : 'M[C]_(N, n))
    : option {p : nat & 'M[C]_(N, p)} :=
  if [forall j, 0 < var A 0 j] then bcast_add (Z *m (scaled A)^T) (mean A)
  else None.

(** ** [Mvar.stack]: name resolution in its generator expressions

    Each keyword argument of the [Mvar(...)] call in [stack] is a generator
    expression [NAME.FIELD for LOOPVAR in mvars].  A generator expression
    has its own scope holding only its loop variable; a name it does not bind
    is looked up in the enclosing function's locals ([mvars], [kwargs]), then
    in the module's globals, then in the builtins; failing that it raises
    [NameError].  Array contents are carried as plain lists of entries. *)

Inductive pyexc :=
  NameError | AttributeError | ValueError | AssertionError | TypeError.

Inductive pyobj := PyMvar of {n : nat & mvar n} | PyOther.

Definition pyscope := seq (String.string * pyobj).

Fixpoint lookup_scope (sc : pyscope) (x : String.string) : option pyobj :=
  if sc is (y, o) :: sc' then
    if String.eqb x y then Some o else lookup_scope sc' x
  else None.

Fixpoint resolve (envs : seq pyscope) (x : String.string) : option pyobj :=
  if envs is sc :: envs' then
    if lookup_scope sc x is Some o then Some o else resolve envs' x
  else None.

(** The module-level names of mvar.py (its imports and definitions); no
    builtin is called [mvar]. *)
Definition mvar_globals : pyscope :=
  [seq (x, PyOther) | x <- [:: "itertools"; "collections"; "operator";
     "numpy"; "Ellipse"; "autostack"; "diagstack"; "astype"; "paralell";
     "close"; "dots"; "rotation2d"; "isdiag"; "sortrows"; "square";
     "Automath"; "Inplace"; "Matrix"; "Mvar"; "wiki"; "isplit";
     "_rconvert"; "_multipliers"]%string].

Definition row_list k (r : 'rV[C]_k) : seq C := [seq r 0 j | j <- enum 'I_k].

Definition mx_rows k n (M : 'M[C]_(k, n)) : seq (seq C) :=
  [seq row_list (row i M) | i <- enum 'I_k].

Inductive pyval := VRow of seq C | VRows of nat & seq (seq C).

Definition is_row (y : pyval) : bool := if y is VRow _ then true else false.

Inductive field := FMean | FVar | FVectors.

Definition getattr (o : pyobj) (f : field) : pyexc + pyval :=
  match o with
  | PyMvar (existT n A) =>
      inr (match f with
           | FMean => VRow (row_list (mean A))
           | FVar => VRow (row_list (var A))
           | FVectors => VRows n (mx_rows (vectors A))
           end)
  | PyOther => inl AttributeError
  end.

(** [x.f] evaluated in the scopes [envs]. *)
Definition name_attr (envs : seq pyscope) (x : String.string) (f : field)
    : pyexc + pyval :=
  if resolve envs x is Some o then getattr o f else inl NameError.

(** [(x.f for v in items)], consumed in order by the callee; the first
    exception propagates. *)
Fixpoint genexp (envs : seq pyscope) (v x : String.string) (f : field)
    (items : seq {n : nat & mvar n}) : pyexc + seq pyval :=
  match items with
  | [::] => inr [::]
  | it :: its =>
      match name_attr ([:: (v, PyMvar it)] :: envs) x f with
      | inl e => inl e
      | inr y =>
          match genexp envs v x f its with
          | inl e => inl e
          | inr ys => inr (y :: ys)
          end
      end
  end.

(** An iterable argument: a sequence of values, or a generator expression
    [(x.f for v in items)] not yet run. *)
Inductive pyiter :=
| ISeq of seq pyval
| IGen of seq pyscope & String.string & String.string & field & seq {n : nat & mvar n}.

(** Iterating over the argument; a generator runs here. *)
Definition iterate (it : pyiter) : pyexc + seq pyval :=
  match it with
  | ISeq ys => inr ys
  | IGen envs v x f items => genexp envs v x f items
  end.

(** [numpy.concatenate] of one-dimensional parts.  Its first argument must
    be a sequence: anything else (a generator) is a [TypeError] before it is
    iterated.  No parts is a [ValueError]. *)
Definition concatenate (it : pyiter) : pyexc + seq C :=
  match it with
  | IGen _ _ _ _ _ => inl TypeError
  | ISeq parts =>
      if parts is [::] then inl ValueError
      else if all (fun p => if p is VRow _ then true else false) parts then
        inr (flatten [seq (if p is VRow r then r else [::]) | p <- parts])
      else inl ValueError
  end.

(** Modelled from the spec: [helpers.diagstack] (helpers.py, not in the
    sources) stacks matrices block-diagonally; it is taken to accept any
    iterable.  Each part is its width and its rows. *)
Fixpoint diagstack_rows (parts : seq (nat * seq (seq C))) : nat * seq (seq C) :=
  match parts with
  | [::] => (0%N, [::])
  | (w, rs) :: ps =>
      let: (w', rs') := diagstack_rows ps in
      ((w + w')%N,
       [seq r ++ nseq w' 0 | r <- rs] ++ [seq nseq w 0 ++ r | r <- rs'])
  end.

Definition diagstack (it : pyiter) : pyexc + seq (seq C) :=
  match iterate it with
  | inl e => inl e
  | inr parts =>
      if all (fun p => if p is VRows _ _ then true else false) parts then
        inr (diagstack_rows
               [seq (if p is VRows w r then (w, r) else (0%N, [::])) | p <- parts]).2
      else inl ValueError
  end.

(** The constructor on list-shaped fields (sizes checked as [autostack]
    would), squaring and compressing by default. *)
Definition from_lists (m v : seq C) (vs : seq (seq C)) : pyexc + {n : nat & mvar n} :=
  let n := size m in
  let k := size v in
  if (size vs == k) && all (fun r => size r == n) vs then
    if mvar_init (\matrix_(i < k, j < n) nth 0 (nth [::] vs i) j)
                 (Some (\row_(j < k) nth 0 v j)) (Some (\row_(j < n) nth 0 m j))
                 true true
       is Some A then inr (existT _ n A) else inl AssertionError
  else inl ValueError.

Definition stack_scopes : seq pyscope :=
  [:: [:: ("mvars", PyOther); ("kwargs", PyOther)]%string; mvar_globals].

(** [Mvar.stack] on the sequence [mvars]: the keyword arguments are
    evaluated in order, each passing a generator expression. *)
Definition stack (mvars : seq {n : nat & mvar n}) : pyexc + {n : nat & mvar n} :=
  match concatenate (IGen stack_scopes "mvar" "mvar" FMean mvars) with
  | inl e => inl e
  | inr m =>
  match diagstack (IGen stack_scopes "mvar" "mvar" FVectors mvars) with
  | inl e => inl e
  | inr vs =>
  match concatenate (IGen stack_scopes "var" "mvar" FVar mvars) with
  | inl e => inl e
  | inr v => from_lists m v vs
  end end end%string.

(** ** [Mvar.__rmul__]: [other * A]

    The left operand as [convert] sees it: an array of dimension at least
    one, made a [Matrix], or a zero-dimensional array (a constant). *)
Inductive loperand (n : nat) : nat -> Type :=
| LArray m : 'M[C]_(m, n) -> loperand n m
| LScalar : C -> loperand n n.

(** A matrix times [A.transform] is a matrix ([operator.mul]); a constant
    goes to [Mvar.from_cov(mean=constant*self.mean, cov=constant*self.cov)]. *)
Definition mvar_rmul n m (o : loperand n m) (A : mvar n)
    : 'M[C]_(m, n) + option (mvar n) :=
  match o in loperand _ m return 'M[C]_(m, n) + option (mvar n) with
  | LArray _ M => inl (M *m transform A)
  | LScalar c => inr (from_cov (c *: cov A) (c *: mean A))
  end.

(** An array that numpy computes with its entries either all finite, or
    holding [inf]/[nan] (a value: numpy warns and does not raise). *)
Inductive farray (T : Type) := Finite of T | NonFinite.

(** ** Objects and their mutation: the heap of [Mvar] objects and arrays

    Python objects live in a store indexed by location.  An [Mvar] object is
    its attribute dictionary: [var], [vectors] and [mean] are set one by one,
    so their lengths are not tied together.  A sample array is an [N x n]
    array with at least one row.  An [Mvar] object whose fields hold [nan]
    (after an in-place square whose result is not finite) is not followed
    further.  All objects of a store share the dimension [n]. *)

Section Heap.

Variable n : nat.

Inductive obj :=
| OMvar k k' of 'rV[C]_k & 'M[C]_(k', n) & 'rV[C]_n
| OData N of 'M[C]_(N.+1, n)
| OOpaque.

Definition store := seq obj.

Definition of_mvar (A : mvar n) : obj := OMvar (var A) (vectors A) (mean A).

(** An object whose attributes fit together, read as a distribution. *)
Definition to_mvar (o : obj) : option (mvar n) :=
  match o with
  | OMvar k k' v vecs m =>
      if k == k' then Some (Mvar (\row_(j < k') at_col v 0 j) vecs m) else None
  | OData _ _ => None
  | OOpaque => None
  end.

Definition load (s : store) (a : nat) : option obj := ohead (drop a s).

Definition load_mvar (s : store) (a : nat) : option (mvar n) :=
  obind to_mvar (load s a).

Definition dummy : obj := OData (0 : 'M[C]_(1, n)).

Definition update (s : store) (a : nat) (o : obj) : store := set_nth dummy s a o.

(** A new object goes at the first free location. *)
Definition alloc (s : store) (o : obj) : nat * store := (size s, rcons s o).

(** What a call returns: [Failed] when it raises or leaves what the model
    follows (a [None] of the functions above), a given exception, an object
    (by location), a truth value, a fresh array, or [None]. *)
Inductive outcome :=
| Failed
| Raised of pyexc
| RetObj of nat
| RetBool of bool
| RetArray N p of 'M[C]_(N, p)
| RetNone.

Definition ret_new (r : option (mvar n)) (s : store) : outcome * store :=
  if r is Some R then let: (l, s') := alloc s (of_mvar R) in (RetObj l, s')
  else (Failed, s).

(** [copy()]: [Mvar(mean=self.mean, vectors=self.vectors, var=self.var)]. *)
Definition mvar_copy (A : mvar n) : option (mvar n) :=
  mvar_init (vectors A) (Some (var A)) (Some (mean A)) true true.

(** What [do_square] leaves in the object: its squared form, or [nan]
    fields. *)
Definition squared_obj (A : mvar n) : obj :=
  if square_finite (scaled A) None then of_mvar (do_square A) else OOpaque.

(** [Mvar.from_data] on an [N x n] sample array [X]: the mean is taken
    first, then [data -= mean] subtracts it from the caller's array in
    place.  [N - 1] (or [N] when [bias]) is the divisor.  A zero divisor is
    not an error in numpy: the quotient is an array of [inf]/[nan] (with
    [n = 0] it is empty). *)
Definition data_mean N (X : 'M[C]_(N, n)) : 'rV[C]_n :=
  (N%:R)^-1 *: \sum_(i < N) row i X.

Definition centered N (X : 'M[C]_(N, n)) : 'M[C]_(N, n) :=
  X - const_mx 1 *m data_mean X.

Definition data_divisor N (bias : bool) : C :=
  if bias then N%:R else (N%:Z - 1)%:~R.

(** [cov=(data.H*data)/N] on the centred array. *)
Definition data_cov N (X : 'M[C]_(N, n)) (bias : bool) : farray 'M[C]_n :=
  let d := data_divisor N bias in
  let G := (centered X)^t* *m centered X in
  if (d == 0) && (0 < n)%N then NonFinite _ else Finite (d^-1 *: G).

(** The calls on the store: the operators of [Mvar], the constructors from
    data, the [cov] setter, and the three in-place mutators ([do_square],
    [do_compress] and copy-into [self.copy(other)]). *)
Inductive call :=
| CAbs of nat
| CPos of nat
| CInvert of nat
| CMulMvar of nat & nat
| CMulMat of nat & 'M[C]_n
| CMulScalar of nat & C
| CRMul (a : nat) (m : nat) (o : loperand n m)
| CPow of nat & int
| CAdd of nat & nat
| CBlend of seq nat
| CEq of nat & nat
| CSample (a : nat) (N : nat) (Z : 'M[C]_(N, n))
| CFromCov of 'M[C]_n & 'rV[C]_n
| CFromData of nat & bool
| CCopy of nat
| CSetCov of nat & 'M[C]_n
| CSquare of nat
| CCompress of nat
| CCopyInto of nat & nat.

Fixpoint load_all (s : store) (ls : seq nat) : option (seq (mvar n)) :=
  if ls is l :: ls' then
    obind (fun A => omap (cons A) (load_all s ls')) (load_mvar s l)
  else Some [::].

Definition exec (c : call) (s : store) : outcome * store :=
  match c with
  | CAbs a =>
      (* result=self.copy(); result.var=numpy.abs(self.var) *)
      if load_mvar s a is Some A then
        if mvar_copy A is Some R then
          let: (l, s1) := alloc s (of_mvar R) in
          (RetObj l,
           update s1 l (OMvar (map_mx (fun x => `|x|) (var A)) (vectors R) (mean R)))
        else (Failed, s)
      else (Failed, s)
  | CPos a =>
      (* self.do_square(); return self.copy() *)
      if load_mvar s a is Some A then
        let s1 := update s a (squared_obj A) in
        if square_finite (scaled A) None then ret_new (mvar_copy (do_square A)) s1
        else (Failed, s1)
      else (Failed, s)
  | CInvert a =>
      (* result=self.copy(); result.var=-(self.var) *)
      if load_mvar s a is Some A then
        if mvar_copy A is Some R then
          let: (l, s1) := alloc s (of_mvar R) in
          (RetObj l, update s1 l (OMvar (- var A) (vectors R) (mean R)))
        else (Failed, s)
      else (Failed, s)
  | CMulMvar a b =>
      if (load_mvar s a, load_mvar s b) is (Some A, Some B) then
        ret_new (mvar_mul A (OpMvar B)) s
      else (Failed, s)
  | CMulMat a M =>
      if load_mvar s a is Some A then ret_new (mvar_mul A (OpArray M)) s
      else (Failed, s)
  | CMulScalar a c =>
      if load_mvar s a is Some A then ret_new (mvar_mul A (OpScalar n c)) s
      else (Failed, s)
  | CRMul a m o =>
      if load_mvar s a is Some A then
        match mvar_rmul o A with
        | inl M => (RetArray M, s)
        | inr r => ret_new r s
        end
      else (Failed, s)
  | CPow a p =>
      if load_mvar s a is Some A then ret_new (mvar_pow A p) s else (Failed, s)
  | CAdd a b =>
      if (load_mvar s a, load_mvar s b) is (Some A, Some B) then
        ret_new (mvar_add A B) s
      else (Failed, s)
  | CBlend ls =>
      if load_all s ls is Some As then ret_new (blend As) s else (Failed, s)
  | CEq a b =>
      if (load_mvar s a, load_mvar s b) is (Some A, Some B) then
        (RetBool (mvar_eq A B), s)
      else (Failed, s)
  | CSample a N Z =>
      if load_mvar s a is Some A then
        if sample A Z is Some (existT p X) then (RetArray X, s)
        else (Failed, s)
      else (Failed, s)
  | CFromCov c m => ret_new (from_cov c m) s
  | CFromData a bias =>
      match load s a with
      | Some (OData N X) =>
          let m := data_mean X in
          let s1 := update s a (OData (centered X)) in
          match data_cov X bias with
          | Finite c => ret_new (from_cov c m) s1
          | NonFinite => (Raised AssertionError, s1)
            (* from_cov: [assert cov==cov.H]; [nan] is close to nothing *)
          end
      | Some o => if to_mvar o is Some A then ret_new (mvar_copy A) s
                  else (Failed, s)
      | None => (Failed, s)
      end
  | CCopy a =>
      if load_mvar s a is Some A then ret_new (mvar_copy A) s else (Failed, s)
  | CSetCov a c =>
      (* self.copy(Mvar.from_cov(mean=self.mean, cov=cov)) *)
      if load_mvar s a is Some A then
        if from_cov c (mean A) is Some R then (RetNone, update s a (of_mvar R))
        else (Failed, s)
      else (Failed, s)
  | CSquare a =>
      if load_mvar s a is Some A then (RetNone, update s a (squared_obj A))
      else (Failed, s)
  | CCompress a =>
      if load_mvar s a is Some A then
        if do_compress A is Some A' then (RetNone, update s a (of_mvar A'))
        else (Failed, s)
      else (Failed, s)
  | CCopyInto a b =>
      (* self.__dict__=other.__dict__.copy() *)
      match load_mvar s a, load s b with
      | Some _, Some (OMvar _ _ _ _ _ as o) => (RetNone, update s a o)
      | _, _ => (Failed, s)
      end
  end.

(** The calls the spec names as the in-place mutators: [do_square],
    [do_compress] and copy-into; the [cov] setter is a copy-into. *)
Definition mutator (c : call) : bool :=
  match c with
  | CSquare _ | CCompress _ | CCopyInto _ _ | CSetCov _ _ => true
  | _ => false
  end.


End Heap.

(** The [cov] property's setter on the object at [a], as a function of the
    store. *)
Definition set_cov n (s : store n) (a : nat) (c : 'M[C]_n) : outcome * store n :=
  exec (CSetCov a c) s.

(** ** [isplit]: [itertools.groupby] into a [collections.defaultdict(list)] *)

Section Isplit.

Variables (T : Type) (K : eqType) (fkey : T -> K).

(** [itertools.groupby(sequence, fkey)]: the current group has the key
    [tgt] of its first item; the next item joins it when its key equals
    [tgt], otherwise the group is emitted and a new one starts. *)
Fixpoint groupby_from (tgt : K) (run : seq T) (s : seq T) : seq (K * seq T) :=
  match s with
  | [::] => [:: (tgt, run)]
  | y :: s' =>
      if fkey y == tgt then groupby_from tgt (rcons run y) s'
      else (tgt, run) :: groupby_from (fkey y) [:: y] s'
  end.

Definition groupby (s : seq T) : seq (K * seq T) :=
  if s is x :: s' then groupby_from (fkey x) [:: x] s' else [::].

(** A [defaultdict(list)]: reading a missing key gives the empty list. *)
Definition ddict := seq (K * seq T).

Fixpoint dget (d : ddict) (k : K) : seq T :=
  if d is (k', v) :: d' then if k' == k then v else dget d' k else [::].

Definition dset (d : ddict) (k : K) (v : seq T) : ddict :=
  (k, v) :: [seq p <- d | p.1 != k].

(** [for key, iterator in groupby(...): R = result[key]; R.extend(iterator);
    result[key] = R]. *)
Definition isplit (s : seq T) : ddict :=
  foldl (fun d kr => dset d kr.1 (dget d kr.1 ++ kr.2)) [::] (groupby s).

End Isplit.

(** ** Algebraic toolkit *)

Lemma unitary_trC n (U : 'M[C]_n) : U \is unitarymx -> U^t* *m U = 1%:M.
Proof. by move=> /unitarymxP /mulmx1C. Qed.

Lemma diag_commute_fun m n (Y : 'M[C]_(m, n)) (g : 'rV[C]_m) (w : 'rV[C]_n)
    (h : C -> C) :
  diag_mx g *m Y = Y *m diag_mx w ->
  diag_mx (map_mx h g) *m Y = Y *m diag_mx (map_mx h w).
Proof.
move=> key; apply/matrixP=> i j; have /matrixP /(_ i j) := key.
rewrite !mul_diag_mx !mul_mx_diag !mxE.
have [->|Y0] := eqVneq (Y i j) 0; first by move=> _; rewrite mulr0 mul0r.
move=> H; have gw : g 0 i = w 0 j by apply: (mulIf Y0); rewrite H mulrC.
by rewrite gw mulrC.
Qed.

(** Two unitary diagonalisations of one matrix agree on every function of
    the eigenvalues. *)
Lemma diag_conj_fun n (U W : 'M[C]_n) (g w : 'rV[C]_n) (h : C -> C) :
  U \is unitarymx -> W \is unitarymx ->
  U^t* *m diag_mx g *m U = W *m diag_mx w *m W^t* ->
  U^t* *m diag_mx (map_mx h g) *m U = W *m diag_mx (map_mx h w) *m W^t*.
Proof.
move=> uU uW E0.
have UU : U *m U^t* = 1%:M by apply/unitarymxP.
have WW : W^t* *m W = 1%:M by apply: unitary_trC.
have key : diag_mx g *m (U *m W) = (U *m W) *m diag_mx w.
  rewrite mulmxA.
  have := congr1 (fun M => U *m M *m W) E0 => /=.
  rewrite !mulmxA UU mul1mx => ->.
  by rewrite -!mulmxA WW mulmx1.
have key' := diag_commute_fun h key.
have UY : U^t* *m (U *m W) = W by rewrite mulmxA unitary_trC // mul1mx.
have -> : U^t* *m diag_mx (map_mx h g) *m U
         = U^t* *m (diag_mx (map_mx h g) *m (U *m W)) *m W^t*.
  by rewrite -!mulmxA (unitarymxP uW) mulmx1.
by rewrite key' mulmxA UY.
Qed.

(** The spectral theorem supplies an eigensolver for Hermitian matrices. *)
Definition spectral_eigh m (H : 'M[C]_m) : 'rV[C]_m * 'M[C]_m :=
  (spectral_diag H, (spectralmx H)^t*).

Lemma spectral_eighP m (H : 'M[C]_m) : H^t* = H ->
  [/\ (spectral_eigh H).2 \is unitarymx,
      H = (spectral_eigh H).2 *m diag_mx (spectral_eigh H).1 *m (spectral_eigh H).2^t* &
      (spectral_eigh H).1 \is a realmx].
Proof.
move=> HH; have herm : H \is hermsymmx.
  by rewrite qualifE /= expr0 scale1r HH.
rewrite /spectral_eigh /=; split.
- by rewrite trmxC_unitary spectral_unitarymx.
- rewrite trmxCK -invmx_unitary ?spectral_unitarymx //.
  exact/orthomx_spectralP/hermitian_normalmx.
- exact: hermitian_spectral_diag_real.
Qed.

Definition spectral_solver : eigensolver :=
  @EigenSolver spectral_eigh spectral_eigh spectral_eighP.

Lemma gram_diagE k n (X Y : 'M[C]_(k, n)) (d : 'rV[C]_k) a b :
  (X^t* *m diag_mx d *m Y) a b = \sum_i (X i a)^* * d 0 i * Y i b.
Proof.
by rewrite mul_mx_diag mxE; apply: eq_bigr => i _; rewrite !mxE.
Qed.

Lemma kept_uniq n (A : mvar n) : uniq (kept A).
Proof. by rewrite /kept sort_uniq filter_uniq // enum_uniq. Qed.


Lemma do_compressE n (A : mvar n) :
  (nk A != 1)%N -> do_compress A = Some (compress_rows A).
Proof. by rewrite /do_compress => /negbTE ->. Qed.

Lemma neq1 n : (1 < n)%N -> (n != 1)%N.
Proof. by case: n => [|[|n]]. Qed.

(** [compress_rows] keeps every function of the covariance that vanishes on
    the dropped rows. *)
Lemma compress_rep n (A : mvar n) (f : C -> C) :
  (vectors (compress_rows A))^t* *m diag_mx (map_mx f (var (compress_rows A)))
    *m vectors (compress_rows A)
  = (vectors A)^t* *m diag_mx (map_mx (keepf f) (var A)) *m vectors A.
Proof.
apply/matrixP=> a b; rewrite !gram_diagE /=.
transitivity (\sum_(j <- kept A) (vectors A j a)^* * f (var A 0 j) * vectors A j b).
  by rewrite [RHS](big_tnth _ _ (kept A)) /=; apply: eq_big => // i _; rewrite !mxE.
rewrite /kept (perm_big _ (permEl (perm_sort _ _))) big_filter big_enum_cond.
rewrite big_mkcond /=; apply: eq_bigr => j _; rewrite !mxE /keepf.
by case: (close0 _); rewrite /= ?mulr0 ?mul0r.
Qed.

Lemma compress_orth n (A : mvar n) :
  vectors A *m (vectors A)^t* = 1%:M ->
  vectors (compress_rows A) *m (vectors (compress_rows A))^t* = 1%:M.
Proof.
move=> H; apply/matrixP=> i j.
set s := in_tuple (kept A).
have -> : (vectors (compress_rows A) *m (vectors (compress_rows A))^t*) i j
          = (vectors A *m (vectors A)^t*) (tnth s i) (tnth s j).
  by rewrite !mxE; apply: eq_bigr => c _; rewrite !mxE.
rewrite H !mxE; congr (_%:R).
by rewrite (inj_eq (tuple_uniqP _ _)) // kept_uniq.
Qed.

(** ** The square and compress passes *)

Lemma atol_gt0 : 0 < atol.
Proof. by rewrite /atol invr_gt0 exprn_gt0 // ltr0n. Qed.

Lemma rtol_gt0 : 0 < rtol.
Proof. by rewrite /rtol invr_gt0 exprn_gt0 // ltr0n. Qed.

Lemma atol_lt1 : atol < 1.
Proof. by rewrite /atol invf_lt1 ?exprn_gt0 ?ltr0n // exprn_egt1 ?ltr1n. Qed.

(** A number at least one in magnitude is not close to zero. *)
Lemma close0_ge1 (x : C) : 1 <= `|x| -> ~~ close0 x.
Proof.
move=> x1; rewrite /close0 /isclose subr0 normr0 mulr0 addr0; apply/negP=> H.
by have := lt_le_trans atol_lt1 (le_trans x1 H); rewrite ltxx.
Qed.

Lemma close0_1 : ~~ close0 (1 : C).
Proof. by apply: close0_ge1; rewrite normr1. Qed.

Lemma isclose_refl x : isclose x x.
Proof.
rewrite /isclose subrr normr0 addr_ge0 ?(ltW atol_gt0) //.
by rewrite mulr_ge0 ?normr_ge0 ?(ltW rtol_gt0).
Qed.

Lemma mx_close_refl m n (A : 'M[C]_(m, n)) : mx_close A A.
Proof. by apply/forallP=> i; apply/forallP=> j; apply: isclose_refl. Qed.

Lemma ones_close k : mx_close (ones k) (map_mx (fun x => `|x|) (ones k)).
Proof.
have -> : map_mx (fun x => `|x|) (ones k) = ones k.
  by apply/matrixP=> i j; rewrite !mxE normr1.
exact: mx_close_refl.
Qed.

Lemma diag_ones k : diag_mx (ones k) = 1%:M.
Proof. by apply/matrixP=> i j; rewrite !mxE. Qed.

Lemma scaled_ones k n (X : 'M[C]_(k, n)) m : scaled (Mvar (ones k) X m) = X.
Proof.
rewrite /scaled /=.
have -> : map_mx sqrtC (ones k) = ones k by apply/matrixP=> i j; rewrite !mxE sqrtC1.
by rewrite diag_ones mul1mx.
Qed.

Lemma square_tall k n (X : 'M[C]_(k, n)) : (0 < n)%N -> (n <= k)%N ->
  square X None = SqOut (eigh E (X^t* *m X)).1 ((eigh E (X^t* *m X)).2^t*).
Proof.
move=> n0 nk; rewrite /square /= ones_close diag_ones mul1mx.
have -> : (k == 0)%N = false by apply/negbTE; rewrite -lt0n (leq_trans n0 nk).
have -> : (n == 0)%N = false by apply/negbTE; rewrite -lt0n.
by rewrite nk /=; case: (eigh E _).
Qed.

Lemma init_tall k n (X : 'M[C]_(k, n)) m : (1 < n)%N -> (n <= k)%N ->
  mvar_init X None (Some m) true true
  = Some (compress_rows (Mvar (eigh E (X^t* *m X)).1 ((eigh E (X^t* *m X)).2^t*) m)).
Proof.
move=> n1 nk; rewrite /mvar_init /= (negbTE (neq1 n1)) /=.
have -> : [forall j, ones k 0 j \is Num.real] by apply/forallP=> j; rewrite mxE real1.
by rewrite /do_square scaled_ones square_tall ?(ltnW n1) // do_compressE ?neq1.
Qed.

Lemma from_cov_herm n (c : 'M[C]_n) m : (n != 1)%N -> c^t* = c ->
  from_cov c m = Some (compress_rows (Mvar (eigh E c).1 ((eigh E c).2^t*) m)).
Proof.
move=> n1 cH; rewrite /from_cov.
have -> : mx_close c (c^t*) by rewrite cH mx_close_refl.
have [_ _ wR] := eighP E cH.
case: (eigh E c) wR => w v /= wR; rewrite /mvar_init /= (negbTE n1) /=.
have -> : [forall j, w 0 j \is Num.real] by apply/forallP=> j; apply: (mxOverP wR).
by rewrite do_compressE.
Qed.

Lemma size_kept_all n (A : mvar n) :
  (forall j, ~~ close0 (var A 0 j)) -> size (kept A) = nk A.
Proof.
move=> H; rewrite /kept size_sort size_filter.
by rewrite (eq_count (a2 := predT)) ?count_predT ?size_enum_ord // => j; rewrite /= H.
Qed.

Lemma size_kept_none n (A : mvar n) :
  (forall j, close0 (var A 0 j)) -> size (kept A) = 0%N.
Proof.
move=> H; rewrite /kept size_sort size_filter.
by rewrite (eq_count (a2 := pred0)) ?count_pred0 // => j; rewrite /= H.
Qed.

(** The eigendecomposition followed by [compress_rows], as [from_cov] and the
    tall branch of [square] produce it. *)
Lemma eig_rep n (H U : 'M[C]_n) (g : 'rV[C]_n) m :
  H^t* = H -> U \is unitarymx -> H = U^t* *m diag_mx g *m U ->
  let R := compress_rows (Mvar (eigh E H).1 ((eigh E H).2^t*) m) in
  [/\ mean R = m, vectors R *m (vectors R)^t* = 1%:M, rep R U g,
      ((forall j, ~~ close0 (g 0 j)) -> nk R = n) &
      ((forall j, close0 (g 0 j)) -> nk R = 0%N)].
Proof.
move=> HH uU HU.
have [uv Hv _] := eighP E HH.
move: uv Hv; case: (eigh E H) => w v /= uv Hv.
have Ug : U^t* *m diag_mx g *m U = v *m diag_mx w *m v^t* by rewrite -HU.
have conj_h h := diag_conj_fun h uU uv Ug.
have conj_ind (b : bool) : (forall j, close0 (g 0 j) = b) ->
    forall j, close0 (w 0 j) = b.
  move=> Hg j; have := conj_h (fun x => (close0 x != b)%:R).
  have -> : map_mx (fun x => (close0 x != b)%:R) g = 0 :> 'rV[C]_n.
    by apply/matrixP=> a c; rewrite !mxE ord1 Hg eqxx.
  rewrite linear0 mulmx0 mul0mx => /(congr1 (fun M => v^t* *m M *m v)).
  rewrite mulmx0 mul0mx !mulmxA unitary_trC // mul1mx -mulmxA unitary_trC // mulmx1.
  move=> /matrixP /(_ j j); rewrite !mxE eqxx mulr1n.
  by case: eqP => //= _ /eqP; rewrite eq_sym oner_eq0.
split => //.
- by apply: compress_orth => /=; rewrite trmxCK unitary_trC.
- by move=> f; rewrite compress_rep /= trmxCK conj_h.
- move=> Hg; transitivity (size (kept (Mvar w (v^t*) m))); first by [].
  by rewrite size_kept_all //= => j; rewrite (conj_ind false) // => i; apply/negbTE.
- move=> Hg; transitivity (size (kept (Mvar w (v^t*) m))); first by [].
  by rewrite size_kept_none //= => j; rewrite (conj_ind true).
Qed.

Lemma gram_herm_r m n (X : 'M[C]_(m, n)) : (X *m X^t*)^t* = X *m X^t*.
Proof. by rewrite trmx_mul map_mxM trmxCK. Qed.

Lemma gram_herm m n (X : 'M[C]_(m, n)) : (X^t* *m X)^t* = X^t* *m X.
Proof. by rewrite trmx_mul map_mxM trmxCK. Qed.

(** [A * M] for a matrix [M] whose Gram matrix has a unitary
    diagonalisation, on the tall branch of [square]. *)
Lemma mul_rep n n' (A : mvar n) (M : 'M[C]_(n, n')) U g :
  (1 < n')%N -> (n' <= nk A)%N -> U \is unitarymx ->
  (scaled A *m M)^t* *m (scaled A *m M) = U^t* *m diag_mx g *m U ->
  exists R, [/\ mvar_mul A (OpArray M) = Some R, mean R = mean A *m M,
              vectors R *m (vectors R)^t* = 1%:M, rep R U g &
              ((forall j, ~~ close0 (g 0 j)) -> nk R = n') /\
              ((forall j, close0 (g 0 j)) -> nk R = 0%N)].
Proof.
move=> n0 nk uU HX; rewrite /mvar_mul /= init_tall //.
have [] := eig_rep (mean A *m M) (gram_herm _) uU HX.
by move=> *; eexists; split; [reflexivity|..|split]; eauto.
Qed.

Lemma from_cov_rep n (c U : 'M[C]_n) g m : (n != 1)%N ->
  U \is unitarymx -> c = U^t* *m diag_mx g *m U -> c^t* = c ->
  exists R, [/\ from_cov c m = Some R, mean R = m,
              vectors R *m (vectors R)^t* = 1%:M, rep R U g &
              ((forall j, ~~ close0 (g 0 j)) -> nk R = n) /\
              ((forall j, close0 (g 0 j)) -> nk R = 0%N)].
Proof.
move=> n1 uU Hc cH; rewrite from_cov_herm //.
have [] := eig_rep m cH uU Hc.
by move=> *; eexists; split; [reflexivity|..|split]; eauto.
Qed.

(** A distribution with no rows has covariance zero. *)
Lemma cov_nk0 n (R : mvar n) : nk R = 0%N -> cov R = 0.
Proof.
case: R => k v V m /= k0; subst k.
by apply/matrixP=> i j; rewrite gram_diagE big_ord0 mxE.
Qed.

(** A product whose left operand has no rows left has no rows either. *)
Lemma mul_empty n n' (A : mvar n) (M : 'M[C]_(n, n')) : (n' != 1)%N ->
  nk A = 0%N ->
  exists R, [/\ mvar_mul A (OpArray M) = Some R, nk R = 0%N, cov R = 0
              & mean R = mean A *m M].
Proof.
move=> n1 A0; rewrite /mvar_mul /= /mvar_init /= (negbTE n1) /=.
have -> : [forall j, ones (nk A) 0 j \is Num.real] by apply/forallP=> j; rewrite mxE real1.
rewrite /do_square /square /=.
have -> : (nk A == 0)%N = true by apply/eqP.
rewrite /= do_compressE //.
have R0 : nk (compress_rows (Mvar (0 : 'rV[C]_0) (0 : 'M[C]_(0, n')) (mean A *m M))) = 0%N.
  by rewrite /= /kept size_sort size_filter enum_ord0.
by eexists; split; [reflexivity | exact: R0 | exact: cov_nk0 | ].
Qed.

(** ** Diagonalisations in a fixed unitary basis *)

Lemma udiag_eq n (U : 'M[C]_n) (a b : 'rV[C]_n) :
  (forall j, a 0 j = b 0 j) -> U^t* *m diag_mx a *m U = U^t* *m diag_mx b *m U.
Proof. by move=> ab; congr (_ *m diag_mx _ *m _); apply/rowP=> j; rewrite ab. Qed.

Lemma udiag1 n (U : 'M[C]_n) (a : 'rV[C]_n) : U \is unitarymx ->
  (forall j, a 0 j = 1) -> U^t* *m diag_mx a *m U = 1%:M.
Proof.
move=> uU a1; rewrite (_ : diag_mx a = 1%:M) ?mulmx1 ?unitary_trC //.
by apply/matrixP=> i j; rewrite !mxE a1.
Qed.

Lemma gram_diag k n (d : 'rV[C]_k) (V : 'M[C]_(k, n)) :
  (diag_mx d *m V)^t* *m (diag_mx d *m V)
  = V^t* *m diag_mx (\row_j ((d 0 j)^* * d 0 j)) *m V.
Proof.
rewrite trmx_mul map_mxM tr_diag_mx map_diag_mx -!mulmxA; congr (_ *m _).
by rewrite mulmxA mulmx_diag; congr (diag_mx _ *m _); apply/rowP=> j; rewrite !mxE.
Qed.

Lemma map_mx_id m n (M : 'M[C]_(m, n)) : map_mx (fun x => x) M = M.
Proof. by apply/matrixP=> i j; rewrite mxE. Qed.

(** What [rep] says of the covariance, the [scaled] Gram matrix, the
    transform and the power transform. *)
Lemma rep_cov n (R : mvar n) U g :
  rep R U g -> cov R = U^t* *m diag_mx (map_mx (keepf id) g) *m U.
Proof. by move=> H; rewrite /cov -H map_mx_id. Qed.

(** Scalar facts about the principal square root. *)
Lemma sqrtC_gram (x : C) : (sqrtC x)^* * sqrtC x = `|x|.
Proof. by rewrite -normCKC -normrX sqrtCK. Qed.

Lemma sqrtC_neq0 (x : C) : x != 0 -> sqrtC x != 0.
Proof. by rewrite sqrtC_eq0. Qed.

Lemma exprz_m1 (x : C) : exprz x (0 - 1) = x^-1.
Proof. by []. Qed.

Lemma exprz_m2 (x : C) : exprz x (-1 - 1) = (x ^+ 2)^-1.
Proof. by []. Qed.

Lemma sqrtC_m2 (x : C) : exprz (sqrtC x) (-1 - 1) = x^-1.
Proof. by rewrite exprz_m2 sqrtCK. Qed.

Lemma keepf_nz f x : ~~ close0 x -> keepf f x = f x.
Proof. by rewrite /keepf => /negbTE ->. Qed.

Lemma sqrtC_div (x : C) : x != 0 -> sqrtC x * x^-1 = (sqrtC x)^-1.
Proof.
move=> x0; have s0 := sqrtC_neq0 x0.
by rewrite -[in x^-1](sqrtCK x) expr2 invfM mulrA divff // mul1r.
Qed.

Lemma sqrtC_gramV (x : C) : x != 0 -> ((sqrtC x)^-1)^* * (sqrtC x)^-1 = `|x|^-1.
Proof. by move=> x0; rewrite fmorphV -invfM sqrtC_gram. Qed.

Lemma scaled_udiag n (v : 'rV[C]_n) (U : 'M[C]_n) m a : U \is unitarymx ->
  scaled (Mvar v U m) *m (U^t* *m diag_mx a *m U)
  = diag_mx (\row_j (sqrtC (v 0 j) * a 0 j)) *m U.
Proof.
move=> uU; rewrite /scaled /= !mulmxA -[_ *m U *m U^t*]mulmxA (unitarymxP uU).
by rewrite mulmx1 mulmx_diag; congr (diag_mx _ *m _); apply/rowP=> j; rewrite !mxE.
Qed.

(** At nonzero variances, or at a power of at least one, [A**p] is the
    product with the power transform. *)
Lemma pow_nz n (A : mvar n) p : (forall j, var A 0 j != 0) ->
  mvar_pow A p = mvar_mul A (OpArray (pow_transform A p)).
Proof.
move=> H; rewrite /mvar_pow.
have -> : [exists j, var A 0 j == 0] = false.
  by apply/negbTE/existsPn => j; rewrite H.
by rewrite andbF.
Qed.

Lemma pow_ge1 n (A : mvar n) (p : int) : 1 <= p ->
  mvar_pow A p = mvar_mul A (OpArray (pow_transform A p)).
Proof. by move=> p1; rewrite /mvar_pow ltNge p1. Qed.

(** Every row the constructor keeps after compressing has a variance not
    close to zero. *)
Lemma compress_keeps n (A : mvar n) j : ~~ close0 (var (compress_rows A) 0 j).
Proof.
rewrite mxE.
have : tnth (in_tuple (kept A)) j \in kept A by apply: mem_tnth.
by rewrite /kept mem_sort mem_filter => /andP [].
Qed.

(** [A**-1] on a full-rank canonical basis: its weights are [|var|^-1]. *)
Lemma pow_m1_rep n (v : 'rV[C]_n) (U : 'M[C]_n) m :
  (1 < n)%N -> U \is unitarymx -> (forall j, v 0 j != 0) ->
  exists P, [/\ mvar_pow (Mvar v U m) (-1) = Some P,
     mean P = m *m (U^t* *m diag_mx (map_mx (fun x => x^-1) v) *m U),
     rep P U (map_mx (fun x => `|x|^-1) v),
     ((forall j, ~~ close0 `|v 0 j|^-1) -> nk P = n) &
     ((forall j, close0 `|v 0 j|^-1) -> nk P = 0%N)].
Proof.
move=> n0 uU v0; rewrite pow_nz //.
have [] := @mul_rep n n (Mvar v U m)
  (pow_transform (Mvar v U m) (-1)) U (map_mx (fun x => `|x|^-1) v) n0 (leqnn n) uU.
- rewrite /pow_transform /= scaled_udiag // gram_diag; apply: udiag_eq => j.
  by rewrite !mxE sqrtC_m2 sqrtC_div // sqrtC_gramV.
move=> P [HP mP _ rP [nP nP0]]; exists P; split=> //.
- by rewrite mP /=; congr (_ *m _); apply: udiag_eq => j; rewrite !mxE sqrtC_m2.
- by move=> vc; apply: nP => j; rewrite mxE.
- by move=> vc; apply: nP0 => j; rewrite mxE.
Qed.

(** [A**0] on a full-rank canonical basis: unit weights. *)
Lemma pow_0_rep n (v : 'rV[C]_n) (U : 'M[C]_n) m :
  (1 < n)%N -> U \is unitarymx -> (forall j, v 0 j != 0) ->
  exists Z, [/\ mvar_pow (Mvar v U m) 0 = Some Z,
     mean Z = m *m (U^t* *m diag_mx (map_mx (fun x => (sqrtC x)^-1) v) *m U),
     rep Z U (ones n) & nk Z = n].
Proof.
move=> n0 uU v0; rewrite pow_nz //.
have [] := @mul_rep n n (Mvar v U m)
  (pow_transform (Mvar v U m) 0) U (ones n) n0 (leqnn n) uU.
- rewrite /pow_transform /= scaled_udiag // gram_diag; apply: udiag_eq => j.
  rewrite !mxE exprz_m1 mulfV ?sqrtC_neq0 //.
  by rewrite rmorph1 mulr1.
move=> Z [HZ mZ _ rZ [nZ _]]; exists Z; split=> //.
by apply: nZ => j; rewrite mxE close0_1.
Qed.

Lemma close0E (x : C) : close0 x = (`|x| <= atol).
Proof. by rewrite /close0 /isclose subr0 normr0 mulr0 addr0. Qed.

Lemma conj_nneg (x : C) : 0 <= x -> x^* = x.
Proof. by move=> x0; apply: conj_Creal; apply: ger0_real. Qed.

Lemma udiag_add n (U : 'M[C]_n) (a b : 'rV[C]_n) :
  U^t* *m diag_mx a *m U + U^t* *m diag_mx b *m U
  = U^t* *m diag_mx (\row_j (a 0 j + b 0 j)) *m U.
Proof.
rewrite -mulmxDl -mulmxDr; congr (_ *m _ *m _).
by apply/matrixP=> i j; rewrite !mxE mulrnDl.
Qed.

Lemma udiag_scale n (U : 'M[C]_n) (a : 'rV[C]_n) (c : C) :
  c *: (U^t* *m diag_mx a *m U) = U^t* *m diag_mx (\row_j (c * a 0 j)) *m U.
Proof.
rewrite scalemxAl scalemxAr; congr (_ *m _ *m _).
by apply/matrixP=> i j; rewrite !mxE mulrnAr.
Qed.

Lemma unitarymx1 n : (1%:M : 'M[C]_n) \is unitarymx.
Proof. by apply/unitarymxP; rewrite trmx1 map_mx1 mulmx1. Qed.

Lemma udiag_id n (a : 'rV[C]_n) : (1%:M : 'M[C]_n)^t* *m diag_mx a *m 1%:M = diag_mx a.
Proof. by rewrite trmx1 map_mx1 mul1mx mulmx1. Qed.

Lemma atol_lt_half : atol < 2%:R^-1.
Proof.
rewrite /atol ltf_pV2 ?posrE ?exprn_gt0 ?ltr0n //.
apply: lt_le_trans (_ : 10%:R <= _); first by rewrite ltr_nat.
by rewrite ler_eXnr // ler1n.
Qed.

Lemma adjmxM m n p (A : 'M[C]_(m, n)) (B : 'M[C]_(n, p)) : (A *m B)^t* = B^t* *m A^t*.
Proof. by rewrite trmx_mul map_mxM. Qed.

Lemma adj_diag n (r : 'rV[C]_n) : (diag_mx r)^t* = diag_mx (map_mx (fun x => x^*) r).
Proof. by rewrite tr_diag_mx map_diag_mx. Qed.

(** The rows [square] returns on its reduced-rank path, against each other. *)
Lemma wide_gram k n (X : 'M[C]_(k, n)) (W : 'M[C]_k) (L r : 'rV[C]_k) :
  W \is unitarymx -> X *m X^t* = W *m diag_mx L *m W^t* ->
  (diag_mx r *m (W^t* *m X)) *m (diag_mx r *m (W^t* *m X))^t*
  = diag_mx (\row_j (r 0 j * L 0 j * (r 0 j)^*)).
Proof.
move=> uW HW; rewrite !adjmxM trmxCK adj_diag !mulmxA.
rewrite -[_ *m X *m X^t*]mulmxA HW !mulmxA -[_ *m W^t* *m W]mulmxA unitary_trC //.
rewrite mulmx1 -[_ *m W^t* *m W]mulmxA unitary_trC // mulmx1 !mulmx_diag.
by congr diag_mx; apply/rowP=> j; rewrite !mxE.
Qed.

(** The Gram matrix [X X^H] of the reduced-rank example below. *)
Lemma XX (i k : 'I_2) :
  let X := \matrix_(i < 2, j < 3)
    ((j == 1%N :> nat) || (i == 0%N :> nat) && (j == 0%N :> nat))%:R : 'M[C]_(2, 3) in
  (X *m X^t*) i k = (if (i == 0%N :> nat) && (k == 0%N :> nat) then 2%:R else 1).
Proof.
rewrite /= !mxE !big_ord_recl big_ord0 !mxE /=.
case: i => [[|[|i]] Hi] //=; case: k => [[|[|k]] Hk] //=;
  by rewrite ?conjC_nat -?natrM addr0 -!natrD.
Qed.

(** ** The store *)

Lemma take_ret_new n (r : option (mvar n)) (s : store n) :
  take (size s) (ret_new r s).2 = s.
Proof. by case: r => [R|] /=; rewrite ?take_size // -cats1 take_size_cat. Qed.


Lemma load_lt n (s : store n) a o : load s a = Some o -> (a < size s)%N.
Proof.
by rewrite /load ltnNge; case: leqP => // /drop_oversize ->.
Qed.

Lemma size_update n (s : store n) a o : (a < size s)%N -> size (update s a o) = size s.
Proof. by move=> lt; rewrite size_set_nth; apply/maxn_idPr. Qed.

Lemma take_ret_new_update n (r : option (mvar n)) (s : store n) a o :
  (a < size s)%N -> take (size s) (ret_new r (update s a o)).2 = update s a o.
Proof. by move=> lt; rewrite -{1}(size_update o lt) take_ret_new. Qed.

Lemma to_of_mvar n (R : mvar n) : to_mvar (of_mvar R) = Some R.
Proof.
case: R => k v V m; rewrite /to_mvar /of_mvar /= eqxx.
by congr (Some (Mvar _ _ _)); apply/rowP=> j; rewrite mxE /at_col valK.
Qed.

(** ** Small instances *)



(** Distributions with no rows. *)
Lemma pow_nk0 n (R : mvar n) p : nk R = 0%N ->
  mvar_pow R p = mvar_mul R (OpArray (pow_transform R p)) /\ pow_transform R p = 0.
Proof.
case: R => k v V m /= k0; subst k; split; first by apply: pow_nz => -[].
by apply/matrixP=> i j; rewrite gram_diagE big_ord0 mxE.
Qed.

Lemma rtol_lt_half : rtol < 2%:R^-1.
Proof.
rewrite /rtol ltf_pV2 ?posrE ?exprn_gt0 ?ltr0n //.
apply: lt_le_trans (_ : 10%:R <= _); first by rewrite ltr_nat.
by rewrite ler_eXnr // ler1n.
Qed.

(** Zero is not close to a number of magnitude at least one. *)
Lemma not_close_big (y : C) : 1 <= `|y| -> ~~ isclose 0 y.
Proof.
move=> y1; rewrite /isclose sub0r normrN; apply/negbT/lt_geF.
have h0 : 0 <= `|y| by rewrite normr_ge0.
have half : `|y| = 2%:R^-1 * `|y| + 2%:R^-1 * `|y|.
  by rewrite -mulrDl -[2%:R^-1 + _]mulr2n -mulr_natr mulVf ?pnatr_eq0 ?mul1r.
rewrite [X in _ < X]half; apply: ltr_leD.
  by apply: lt_le_trans atol_lt_half _; rewrite -[X in X <= _]mulr1 ler_pM ?invr_ge0 ?ler0n.
by rewrite ler_pM // ?(ltW rtol_gt0) ?(ltW rtol_lt_half).
Qed.


Lemma big_var_close0 : close0 `|2%:R / atol|^-1.
Proof.
rewrite close0E normfV normr_id gtr0_norm ?divr_gt0 ?atol_gt0 ?ltr0n //.
rewrite invfM invrK.
by rewrite ler_piMl ?(ltW atol_gt0) // invf_le1 ?ler1n ?ltr0n.
Qed.

(** Every column of [data - mean] sums to zero. *)
Lemma centered_sum n N (X : 'M[C]_(N.+1, n)) j : \sum_i centered X i j = 0.
Proof.
rewrite /centered /data_mean.
under eq_bigr do rewrite !mxE big_ord1 !mxE mul1r.
rewrite sumrB sumr_const card_ord summxE.
under [\sum_(i < N.+1) row i X ord0 j]eq_bigr do rewrite mxE.
by rewrite -mulr_natl mulrA mulfV ?pnatr_eq0 // mul1r subrr.
Qed.

(** [from_data] on an array centres the caller's array in place, whatever
    the rest of the call does. *)
Lemma from_data_store n N (X : 'M[C]_(N.+1, n)) (s : store n) a bias :
  load s a = Some (OData X) ->
  take (size s) (exec (CFromData n a bias) s).2 = update s a (OData (centered X)).
Proof.
move=> La; have lt := load_lt La; rewrite /= La.
case: (data_cov X bias) => [c|] /=; first exact: take_ret_new_update.
by rewrite take_oversize // size_update.
Qed.

(** Centring changes an array with a column that does not sum to zero. *)
Lemma centered_moves n N (X : 'M[C]_(N.+1, n)) j :
  \sum_i X i j != 0 -> centered X != X.
Proof.
move=> nz; apply/eqP=> H; have := centered_sum X j.
by rewrite H => /eqP; rewrite (negbTE nz).
Qed.

Lemma big_var_neq0 : (2%:R / atol : C) != 0.
Proof. by apply: mulf_neq0; rewrite ?pnatr_eq0 // invr_eq0 gt_eqF // atol_gt0. Qed.

(** Shifting a mean by [atol] is invisible to [==]. *)
Lemma atol_shift :
  mvar_eq (Mvar (ones 1) 1%:M 0) (Mvar (ones 1) 1%:M (const_mx atol)) /\
  mean (Mvar (ones 1) 1%:M 0) <> mean (Mvar (ones 1) 1%:M (const_mx atol)).
Proof.
split.
  rewrite /mvar_eq mx_close_refl andbT; apply/forallP=> i; apply/forallP=> j.
  rewrite /isclose !mxE sub0r normrN gtr0_norm ?atol_gt0 //.
  by rewrite lerDl mulr_ge0 // ltW // ?atol_gt0 ?rtol_gt0.
move/matrixP/(_ 0 0); rewrite !mxE => /eqP.
by rewrite eq_sym gt_eqF ?atol_gt0.
Qed.

(** ** The claims *)

(** C1 (code bug). On its reduced-rank path ([k < n]) [square] weights
    its rows by the diagonal of [Xcov] instead of the eigenvalues [Xval] it
    computes: for the [2 x 3] generators [[1,1,0],[0,1,0]] with the default
    unit weights the rows it returns are not orthonormal, whatever the
    Hermitian eigensolver. *)
Theorem C1_square_wide :
  let X := \matrix_(i < 2, j < 3)
    ((j == 1%N :> nat) || (i == 0%N :> nat) && (j == 0%N :> nat))%:R : 'M[C]_(2, 3) in
  svec (square X None) *m (svec (square X None))^t* <> 1%:M.
Proof.
move=> X; rewrite /square ones_close /= diag_ones mul1mx.
have hH : (X *m X^t*)^t* = X *m X^t* by rewrite gram_herm_r.
have [uW HW _] := eighP E hH.
move: uW HW; case: (eigh E _) => L W /= uW HW.
rewrite (wide_gram _ uW HW).
have XX' := XX; rewrite /= -/X in XX'.
set G := X *m X^t* in HW XX' *; clearbody G.
move=> /matrixP /(_ 0 0); rewrite !mxE /= mulr1n XX' /=.
have t0 : (2%:R : C) != 0 by rewrite pnatr_eq0.
rewrite /rsqrt mulrC mulrA sqrtC_gramV // normr_nat.
move/(congr1 (fun x => 2%:R * x)); rewrite mulr1 mulrA divff // mul1r => L0.
have HWc : G *m W = W *m diag_mx L by rewrite HW -!mulmxA unitary_trC // mulmx1.
have e i : (G *m W) i 0 = (W *m diag_mx L) i 0 by rewrite HWc.
have e0 := e 0; have e1 := e 1.
rewrite mul_mx_diag !mxE !big_ord_recl !big_ord0 !XX' /= L0 in e0 e1.
have w00 : W 0 0 = W ord0 0 by congr (W _ 0); apply: val_inj.
have w10 : W 1 0 = W (lift ord0 ord0) 0 by congr (W _ 0); apply: val_inj.
rewrite w00 in e0; rewrite w10 in e1.
move: e0 e1; set a := W ord0 0; set b := W (lift ord0 ord0) 0 => e0 e1.
have b0 : b = 0.
  by move: e0; rewrite mul1r addr0 mulrC -[RHS]addr0 => /addrI.
have a0 : a = 0 by move: e1; rewrite b0 !mul1r !addr0 mul0r.
have := unitary_trC uW; move=> /matrixP /(_ 0 0).
rewrite !mxE !big_ord_recl big_ord0 !mxE /= -/a -/b a0 b0.
by rewrite !mulr0 !addr0 => /eqP; rewrite eq_sym oner_eq0.
Qed.

(** C2 (code bug). [D & D] does not halve every invertible covariance.  For
    [D] in two dimensions with both variances [2 / atol] on the unit basis
    and mean [(1, 1)], [D**-1] has the variances [atol / 2], which the
    constructor's compression drops; [D**-1 + D**-1] is then the zero
    distribution and so is its inverse.  The self-blend has covariance [0]
    and mean [0], and the docstring's [(A & A).cov == A.cov/2] fails. *)
Theorem C2_blend_self_big :
  let D := Mvar (const_mx (2%:R / atol) : 'rV[C]_2) 1%:M (const_mx 1) in
  exists B, [/\ blend [:: D; D] = Some B, cov B = 0, mean B = 0,
    ~~ mx_close (cov B) (2%:R^-1 *: cov D) & mean B != mean D].
Proof.
move=> D.
have v0 : forall j, var D 0 j != 0 by move=> j; rewrite mxE big_var_neq0.
have [P [HP _ _ _ nP]] := pow_m1_rep (const_mx 1) (isT : (1 < 2)%N) (unitarymx1 2) v0.
have P0 : nk P = 0%N by apply: nP => j; rewrite mxE big_var_close0.
have c0 : cov P + cov P = (1%:M)^t* *m diag_mx 0 *m 1%:M.
  by rewrite udiag_id cov_nk0 // addr0 linear0.
have cH : (cov P + cov P)^t* = cov P + cov P.
  by rewrite cov_nk0 // addr0; apply/matrixP=> i j; rewrite !mxE rmorph0.
have [S [HS _ _ _ [_ nS]]] :=
  from_cov_rep (mean P + mean P) (isT : (2 != 1)%N) (unitarymx1 2) c0 cH.
have S0 : nk S = 0%N by apply: nS => j; rewrite mxE; apply: isclose_refl.
have [HpS TS] := pow_nk0 (-1) S0.
have [Q [HQ _ cQ mQ]] := mul_empty (pow_transform S (-1)) (isT : (2 != 1)%N) S0.
have mQ0 : mean Q = 0 by rewrite mQ TS mulmx0.
exists Q; split=> //.
- by rewrite /blend /paralell /= HP /= /mvar_add HS /= HpS.
- rewrite cQ; apply/negP=> /forallP /(_ 0) /forallP /(_ 0).
  rewrite [X in isclose X _]mxE; apply/negP; apply: not_close_big.
  rewrite /cov /= udiag_id !mxE eqxx mulr1n mulrA mulVf ?pnatr_eq0 // mul1r.
  rewrite normfV gtr0_norm ?atol_gt0 // invf_ge1 ?atol_gt0 //.
  exact: ltW atol_lt1.
- rewrite mQ0; apply/eqP=> /matrixP /(_ 0 0); rewrite !mxE => /eqP.
  by rewrite eq_sym oner_eq0.
Qed.

(** C3 (code bug). [A**0 == A**-1 * A] fails.  For [A] in two dimensions
    with both variances [2 / atol] on the unit basis, [A**-1] has the
    variances [atol / 2], which the compression drops, so [A**-1 * A] has
    covariance [0], while [A**0] has the identity covariance; [__eq__]
    tells them apart, against the assertion in [__pow__]'s docstring. *)
Theorem C3_pow_zero_big :
  let A := Mvar (const_mx (2%:R / atol) : 'rV[C]_2) 1%:M 0 in
  exists Z Q, [/\ mvar_pow A 0 = Some Z,
    obind (fun P => mvar_mul P (OpMvar A)) (mvar_pow A (-1)) = Some Q,
    cov Z = 1%:M, cov Q = 0 & ~~ mvar_eq Z Q].
Proof.
move=> A.
have v0 : forall j, var A 0 j != 0 by move=> j; rewrite mxE big_var_neq0.
have [Z [HZ _ rZ _]] := pow_0_rep 0 (isT : (1 < 2)%N) (unitarymx1 2) v0.
have [P [HP _ _ _ nP]] := pow_m1_rep 0 (isT : (1 < 2)%N) (unitarymx1 2) v0.
have P0 : nk P = 0%N by apply: nP => j; rewrite mxE big_var_close0.
have [Q [HQ _ cQ _]] := mul_empty (transform A) (isT : (2 != 1)%N) P0.
have cZ : cov Z = 1%:M.
  by rewrite (rep_cov rZ); apply: udiag1 => [|j]; rewrite ?unitarymx1 // !mxE keepf_nz ?close0_1.
exists Z, Q; split=> //; first by rewrite HP.
rewrite /mvar_eq cZ cQ andbC; apply/negP=> /andP [/forallP /(_ 0) /forallP /(_ 0)].
by rewrite !mxE eqxx mulr1n; move: close0_1; rewrite /close0 => /negbTE ->.
Qed.


(** C9. The product [A * B] of two distributions does not depend on the
    mean of [B]: two right operands with the same variances and vectors give
    the same result. *)
Theorem C9_mul_mean_free n (A : mvar n) k (v : 'rV[C]_k) (U : 'M[C]_(k, n)) m1 m2 :
  mvar_mul A (OpMvar (Mvar v U m1)) = mvar_mul A (OpMvar (Mvar v U m2)).
Proof. by []. Qed.

(** C7 (code bug). [Mvar.stack] never returns a distribution: its first
    keyword argument is [numpy.concatenate(mvar.mean for mvar in mvars)],
    and [numpy.concatenate] refuses a generator ([TypeError]) for every
    [mvars], the empty one included. *)
Theorem C7_stack_raises (mvars : seq {n : nat & mvar n}) :
  stack mvars = inl TypeError.
Proof. by []. Qed.

(** C6 (code bug). Two calls outside the in-place mutators change the
    objects they are given: [from_data] on an array replaces the caller's
    array by its centred copy ([data -= mean]), which differs from it as
    soon as a column does not sum to zero; unary [+] replaces its operand by
    its squared form, which has fewer rows when the operand has more rows
    than dimensions. *)
Theorem C6_inputs_mutated n N (X : 'M[C]_(N.+1, n)) bias (A : mvar n) :
  [/\ ~~ mutator (CFromData n 0 bias) /\ ~~ mutator (CPos n 0),
      take 1 (exec (CFromData n 0 bias) [:: OData X]).2 = [:: OData (centered X)],
      take 1 (exec (CPos n 0) [:: of_mvar A]).2 = [:: squared_obj A],
      (exists j, \sum_i X i j != 0) -> centered X != X &
      (0 < n)%N -> (n < nk A)%N -> squared_obj A <> of_mvar A].
Proof.
split=> //.
- exact: (from_data_store (s := [:: OData X])).
- rewrite /exec (_ : load_mvar [:: of_mvar A] 0 = Some A); first exact: (to_of_mvar A).
  case: ifP => _ //.
  by rewrite /ret_new; case: (mvar_copy _).
- by move=> [j nz]; apply: (centered_moves nz).
- move=> n0 nA; rewrite /squared_obj /square_finite (ltnW nA) !orbT.
  move=> /(congr1 (fun o => if o is OMvar k _ _ _ _ then k else 0%N)) /=.
  rewrite /do_square square_tall ?(ltnW nA) //= => nn.
  by move: nA; rewrite -nn ltnn.
Qed.

(** C10. With [bias] false [from_data] divides the centred Gram matrix by
    the number of samples minus one; with one sample the divisor is zero,
    and the division is carried out: numpy gives an array of [inf]/[nan]
    instead of raising.  The exception that follows comes from
    [from_cov]'s Hermitian assertion, after the caller's array has been
    centred. *)
Theorem C10_one_row n N (X : 'M[C]_(N, n)) (Y : 'M[C]_(1, n)) (s : store n) a :
  [/\ data_divisor N false = N%:R - 1,
      data_cov X false = if (N == 1%N) && (0 < n)%N then NonFinite _
                         else Finite ((N%:R - 1)^-1 *: ((centered X)^t* *m centered X)),
      data_divisor 1 false = 0,
      (0 < n)%N -> data_cov Y false = NonFinite _ &
      (0 < n)%N -> load s a = Some (OData Y) ->
        exec (CFromData n a false) s = (Raised AssertionError, update s a (OData (centered Y)))].
Proof.
have dE M : data_divisor M false = M%:R - 1 by rewrite /data_divisor rmorphB /= rmorph1.
have cE M (Z : 'M[C]_(M, n)) : data_cov Z false
    = if (M == 1%N) && (0 < n)%N then NonFinite _
      else Finite ((M%:R - 1)^-1 *: ((centered Z)^t* *m centered Z)).
  by rewrite /data_cov dE subr_eq0 pnatr_eq1.
split.
- exact: dE.
- exact: cE.
- by rewrite dE subrr.
- by move=> n0; rewrite cE n0.
- by move=> n0 La; rewrite /exec La cE n0.
Qed.

(** C5 (corrected). [__eq__] compares the means and the reconstructed
    covariances with [Matrix.__eq__], which carries a tolerance: equal means
    and covariances make the distributions equal, and equality holds exactly
    when every entry of the means and of the covariances is within
    [atol + rtol * |b|] of its counterpart. *)
Theorem C5_eq_tolerance n (A B : mvar n) :
  (mean A = mean B -> cov A = cov B -> mvar_eq A B) /\
  (mvar_eq A B <->
     (forall j, `|mean A 0 j - mean B 0 j| <= atol + rtol * `|mean B 0 j|) /\
     (forall i j, `|cov A i j - cov B i j| <= atol + rtol * `|cov B i j|)).
Proof.
split=> [Hm Hc|]; first by rewrite /mvar_eq Hm Hc !mx_close_refl.
rewrite /mvar_eq /mx_close; split=> [/andP[/forallP H1 /forallP H2]|[H1 H2]].
  by split=> [j|i j]; [exact: (forallP (H1 0)) j | exact: (forallP (H2 i)) j].
apply/andP; split; apply/forallP=> i; apply/forallP=> j; last exact: H2.
by rewrite (ord1 i); exact: H1.
Qed.

(** C8 (code bug). [sample] fails on distributions whose variances are all
    non-negative: on a canonical two-vector distribution in three dimensions
    with unit variances ([randn(n, 3) * scaled.T] is [n x 2] and does not
    broadcast against the length-3 mean), and on a one-dimensional
    distribution with a zero variance ([assert (self.var > 0).all()]). *)
Theorem C8_sample_fails :
  let A0 := Mvar (const_mx 1 : 'rV[C]_2)
              (\matrix_(i < 2, j < 3) (i == j :> nat)%:R) 0 in
  let A1 := Mvar (const_mx 0 : 'rV[C]_1) (1%:M : 'M[C]_1) 0 in
  [/\ vectors A0 *m (vectors A0)^t* = 1%:M, [forall j, 0 <= var A0 0 j],
      (forall N (Z : 'M[C]_(N, 3)), sample A0 Z = None),
      [forall j, 0 <= var A1 0 j] &
      forall N (Z : 'M[C]_(N, 1)), sample A1 Z = None].
Proof.
move=> A0 A1; split.
- apply/matrixP=> i k; rewrite !mxE !big_ord_recl big_ord0 !mxE /=.
  case: i => [[|[|i]] Hi] //; case: k => [[|[|k]] Hk] //=;
    by rewrite ?conjC_nat ?(mul0r, mulr0, mul1r, mulr1, addr0, add0r).
- by apply/forallP=> j; rewrite mxE ler01.
- move=> N Z; rewrite /sample.
  have -> : [forall j, 0 < var A0 0 j] by apply/forallP=> j; rewrite mxE ltr01.
  by [].
- by apply/forallP=> j; rewrite mxE.
- move=> N Z; rewrite /sample.
  have -> : [forall j, 0 < var A1 0 j] = false.
    by apply/negbTE/forallPn; exists 0; rewrite mxE ltxx.
  by [].
Qed.

(** ** Further properties of the code *)

(** The diagonal of [X X^H] at a nonzero row is positive. *)
Lemma gram_diag_pos m n (X : 'M[C]_(m, n)) i : row i X != 0 -> 0 < (X *m X^t*) i i.
Proof.
move=> Xi; rewrite mxE.
under eq_bigr => j _ do rewrite !mxE -normCK.
rewrite lt_def; apply/andP; split; last first.
  by apply: sumr_ge0 => j _; exact: exprn_ge0 (normr_ge0 _).
apply: contra Xi => /eqP S; apply/eqP/rowP => j; rewrite !mxE.
have : `|X i j| ^+ 2 = 0 := psumr_eq0P (fun j _ => exprn_ge0 2 (normr_ge0 (X i j))) S isT.
by move/eqP; rewrite expf_eq0 /= normr_eq0 => /eqP.
Qed.

Lemma rsqrt_gram (d : C) : 0 < d -> (rsqrt d)^* * d * rsqrt d = 1.
Proof.
move=> d0; rewrite /rsqrt conj_nneg ?invr_ge0 ?sqrtC_ge0 ?ltW //.
rewrite mulrC mulrA -invfM -expr2 sqrtCK mulVf //.
by rewrite gt_eqF.
Qed.

(** [square] with its default weights keeps the Gram matrix [X^H X]: on the
    tall branch through the eigendecomposition, on the wide one through the
    rows rescaled by [1/sqrt(diag(X X^H))]. *)
Lemma square_gram m n (X : 'M[C]_(m, n)) :
  ((n <= m)%N \/ forall i, row i X != 0) ->
  (svec (square X None))^t* *m diag_mx (svar (square X None)) *m svec (square X None)
  = X^t* *m X.
Proof.
move=> HX; rewrite /square /= ones_close diag_ones mul1mx.
case: eqP => [m0 | /eqP m0] /=.
  by subst m; apply/matrixP=> i j; rewrite mulmx0 !mxE big_ord0.
case: eqP => [n0 | /eqP n0] /=.
  by subst n; apply/matrixP=> -[].
case: leqP => [nm | mn].
  have [uv Hv _] := eighP E (gram_herm X).
  by move: uv Hv; case: (eigh E _) => w v /= uv Hv; rewrite trmxCK -Hv.
have Hr : forall i, row i X != 0 by case: HX => // nm; rewrite leqNgt mn in nm.
have [uW HW _] := eighP E (gram_herm_r X).
move: uW HW; case: (eigh E _) => L W /= uW HW.
set d := \row_j (X *m X^t*) j j.
have D : diag_mx (map_mx (fun x => x^*) (map_mx rsqrt d)) *m diag_mx d *m diag_mx (map_mx rsqrt d)
         = 1%:M.
  rewrite !mulmx_diag -diag_ones; congr diag_mx; apply/rowP=> j.
  by rewrite !mxE rsqrt_gram //; have := gram_diag_pos (Hr j); rewrite mxE.
rewrite !adjmxM adj_diag trmxCK.
have -> : X^t* *m W *m diag_mx (map_mx (fun x => x^*) (map_mx rsqrt d)) *m diag_mx d
            *m (diag_mx (map_mx rsqrt d) *m (W^t* *m X))
          = X^t* *m W *m (diag_mx (map_mx (fun x => x^*) (map_mx rsqrt d)) *m diag_mx d
            *m diag_mx (map_mx rsqrt d)) *m W^t* *m X by rewrite !mulmxA.
by rewrite D mulmx1 -[X^t* *m W *m W^t*]mulmxA (unitarymxP uW) mulmx1.
Qed.

(** [scaled.H * scaled] is the covariance built on [|var|]. *)
Lemma scaled_gram n (A : mvar n) :
  (scaled A)^t* *m scaled A
  = (vectors A)^t* *m diag_mx (map_mx (fun x => `|x|) (var A)) *m vectors A.
Proof.
by rewrite /scaled gram_diag; congr (_ *m diag_mx _ *m _); apply/rowP=> j; rewrite !mxE sqrtC_gram.
Qed.

(** [square(X)] with default weights returns [(var, vec)] with
    [vec.H diag(var) vec = X.H X]; the wide branch needs nonzero rows. *)
Theorem square_keeps_gram m n (X : 'M[C]_(m, n)) :
  ((n <= m)%N \/ forall i, row i X != 0) ->
  let S := square X None in (svec S)^t* *m diag_mx (svar S) *m svec S = X^t* *m X.
Proof. exact: square_gram. Qed.

(** [A.scaled.H * A.scaled] is the covariance built on [|A.var|]. *)
Theorem scaled_gram_abs n (A : mvar n) :
  (scaled A)^t* *m scaled A
  = (vectors A)^t* *m diag_mx (map_mx (fun x => `|x|) (var A)) *m vectors A.
Proof. exact: scaled_gram. Qed.

(** [do_square] keeps the covariance and the mean of a distribution with
    nonnegative variances. *)
Theorem do_square_cov n (A : mvar n) :
  (forall j, 0 <= var A 0 j) ->
  ((n <= nk A)%N \/ forall j, var A 0 j != 0 /\ row j (vectors A) != 0) ->
  cov (do_square A) = cov A /\ mean (do_square A) = mean A.
Proof.
move=> v0 HA; rewrite /do_square.
have HX : (n <= nk A)%N \/ forall i, row i (scaled A) != 0.
  case: HA => [|Hr]; [by left | right => i].
  have [vi ri] := Hr i.
  rewrite /scaled mul_diag_mx; apply: contra ri => /eqP/rowP Z; apply/eqP/rowP=> c.
  by have := Z c; rewrite !mxE => /eqP; rewrite mulf_eq0 sqrtC_eq0 (negbTE vi) => /eqP.
have := square_gram HX; case: (square _ None) => k w v /= Hg.
split=> //; rewrite {1}/cov /= Hg scaled_gram /cov; congr (_ *m diag_mx _ *m _).
by apply/rowP=> j; rewrite mxE ger0_norm.
Qed.

(** On orthonormal vectors, [A.transform * A.transform = A.cov]. *)
Theorem transform_sq n (A : mvar n) :
  vectors A *m (vectors A)^t* = 1%:M -> transform A *m transform A = cov A.
Proof.
move=> H; rewrite /transform !mulmxA.
rewrite -[_ *m vectors A *m (vectors A)^t*]mulmxA H mulmx1.
rewrite -[_ *m diag_mx _ *m diag_mx _]mulmxA mulmx_diag /cov.
by congr (_ *m diag_mx _ *m _); apply/rowP=> j; rewrite !mxE -expr2 sqrtCK.
Qed.

(** [A * A] is computed exactly as [A ** 2]. *)
Theorem mul_self_pow2 n (A : mvar n) : mvar_mul A (OpMvar A) = mvar_pow A 2.
Proof.
by rewrite pow_ge1.
Qed.


(** [do_compress] on a distribution with other than one row keeps the
    covariance up to the rows it drops, and every row it keeps has a
    variance not close to zero. *)
Theorem compress_cov n (A : mvar n) :
  (nk A != 1)%N ->
  exists R, [/\ do_compress A = Some R,
    cov R = (vectors A)^t* *m diag_mx (map_mx (keepf id) (var A)) *m vectors A
    & forall j, ~~ close0 (var R 0 j)].
Proof.
move=> k1; exists (compress_rows A); split; first exact: do_compressE.
- by rewrite /cov -compress_rep map_mx_id.
- exact: compress_keeps.
Qed.



Lemma cov_herm n (A : mvar n) : (forall j, var A 0 j \is Num.real) -> (cov A)^t* = cov A.
Proof.
move=> vR; rewrite /cov !adjmxM trmxCK adj_diag mulmxA.
by congr (_ *m diag_mx _ *m _); apply/rowP=> j; rewrite mxE conj_Creal.
Qed.

Lemma adj_scale m n (c : C) (M : 'M[C]_(m, n)) : (c *: M)^t* = c^* *: M^t*.
Proof. by apply/matrixP=> i j; rewrite !mxE rmorphM. Qed.

(** [from_cov] on a Hermitian matrix with a unitary diagonalisation. *)
Lemma from_cov_ok n (c U : 'M[C]_n) g m : (n != 1)%N ->
  c^t* = c -> U \is unitarymx -> c = U^t* *m diag_mx g *m U ->
  exists R, [/\ from_cov c m = Some R, mean R = m,
     vectors R *m (vectors R)^t* = 1%:M,
     cov R = U^t* *m diag_mx (map_mx (keepf id) g) *m U &
     ((forall j, ~~ close0 (g 0 j)) -> nk R = n /\ cov R = c)].
Proof.
move=> n1 cH uU Hc; have [R [HR mR oR rR [nR _]]] := from_cov_rep m n1 uU Hc cH.
exists R; split=> //; first exact: rep_cov.
move=> gc; split; first exact: nR.
by rewrite (rep_cov rR) Hc; apply: udiag_eq => j; rewrite mxE keepf_nz.
Qed.

Lemma adj_add m n (M N : 'M[C]_(m, n)) : (M + N)^t* = M^t* + N^t*.
Proof. by apply/matrixP=> i j; rewrite !mxE rmorphD. Qed.

(** [from_cov] on a Hermitian matrix with a unitary diagonalisation, in
    other than one dimension. *)
Theorem from_cov_cov n (c U : 'M[C]_n) g m : (n != 1)%N ->
  c^t* = c -> U \is unitarymx -> c = U^t* *m diag_mx g *m U ->
  exists R, [/\ from_cov c m = Some R, mean R = m,
     vectors R *m (vectors R)^t* = 1%:M,
     cov R = U^t* *m diag_mx (map_mx (keepf id) g) *m U &
     ((forall j, ~~ close0 (g 0 j)) -> nk R = n /\ cov R = c)].
Proof. exact: from_cov_ok. Qed.

(** [A + B] adds the means and, up to the dropped eigen-directions, the
    covariances. *)
Theorem add_cov n (A B : mvar n) (U : 'M[C]_n) g : (n != 1)%N ->
  (forall j, var A 0 j \is Num.real) -> (forall j, var B 0 j \is Num.real) ->
  U \is unitarymx -> cov A + cov B = U^t* *m diag_mx g *m U ->
  exists R, [/\ mvar_add A B = Some R, mean R = mean A + mean B,
     vectors R *m (vectors R)^t* = 1%:M,
     cov R = U^t* *m diag_mx (map_mx (keepf id) g) *m U &
     ((forall j, ~~ close0 (g 0 j)) -> cov R = cov A + cov B)].
Proof.
move=> n1 vA vB uU Hc.
have cH : (cov A + cov B)^t* = cov A + cov B.
  by rewrite adj_add !cov_herm.
have [R [HR mR oR cR HR']] := from_cov_ok (mean A + mean B) n1 cH uU Hc.
by exists R; split=> // gc; case: (HR' gc).
Qed.

(** [A * k] and [k * A] agree for a real scalar [k]: mean and covariance
    are scaled by [k]. *)
Theorem mul_scalar_cov n (A : mvar n) (k : C) (U : 'M[C]_n) g : (n != 1)%N ->
  k \is Num.real -> (forall j, var A 0 j \is Num.real) ->
  U \is unitarymx -> k *: cov A = U^t* *m diag_mx g *m U ->
  exists R, [/\ mvar_mul A (OpScalar n k) = Some R,
     mvar_rmul (LScalar n k) A = inr (Some R), mean R = k *: mean A,
     cov R = U^t* *m diag_mx (map_mx (keepf id) g) *m U &
     ((forall j, ~~ close0 (g 0 j)) -> cov R = k *: cov A)].
Proof.
move=> n1 kR vR uU Hc.
have cH : (k *: cov A)^t* = k *: cov A by rewrite adj_scale conj_Creal // cov_herm.
have [R [HR mR oR cR HR']] := from_cov_ok (k *: mean A) n1 cH uU Hc.
by exists R; split=> //=; [congr inr | move=> gc; case: (HR' gc)].
Qed.

(** [A * 0], in other than one dimension, is a distribution with no rows
    at mean zero. *)
Theorem mul_zero n (A : mvar n) : (n != 1)%N ->
  exists R, [/\ mvar_mul A (OpScalar n 0) = Some R, nk R = 0%N & mean R = 0].
Proof.
have c0 : (0 : C) *: cov A = (1%:M)^t* *m diag_mx 0 *m 1%:M.
  by rewrite scale0r udiag_id linear0.
have cH : ((0 : C) *: cov A)^t* = 0 *: cov A.
  by rewrite scale0r; apply/matrixP=> i j; rewrite !mxE rmorph0.
move=> n1.
have [R [HR mR _ _ [_ nR]]] := from_cov_rep ((0 : C) *: mean A) n1 (unitarymx1 n) c0 cH.
exists R; split=> //; last by rewrite mR scale0r.
by apply: nR => j; rewrite mxE; apply: isclose_refl.
Qed.

(** [A ** 1] on a unitary basis with nonnegative variances has the mean
    and, up to the dropped rows, the covariance of [A]. *)
Theorem pow_one n (v : 'rV[C]_n) (U : 'M[C]_n) m :
  (1 < n)%N -> U \is unitarymx -> (forall j, 0 <= v 0 j) ->
  exists R, [/\ mvar_pow (Mvar v U m) 1 = Some R, mean R = m,
     vectors R *m (vectors R)^t* = 1%:M,
     cov R = U^t* *m diag_mx (map_mx (keepf id) v) *m U &
     ((forall j, ~~ close0 (v 0 j)) -> cov R = cov (Mvar v U m))].
Proof.
move=> n0 uU v0.
have P1 : pow_transform (Mvar v U m) 1 = 1%:M.
  by rewrite /pow_transform /=; apply: udiag1 => // j; rewrite mxE subrr expr0z.
have [] := @mul_rep n n (Mvar v U m) (pow_transform (Mvar v U m) 1) U v n0 (leqnn n) uU.
  rewrite P1 mulmx1 scaled_gram /=; apply: udiag_eq => j.
  by rewrite mxE ger0_norm.
move=> R [HR mR oR rR _]; exists R; split=> //.
- by rewrite mR P1 mulmx1.
- exact: rep_cov.
- move=> vc; rewrite (rep_cov rR) /cov /=; apply: udiag_eq => j.
  by rewrite mxE keepf_nz.
Qed.

(** [A.copy()] on a tall distribution in more than one dimension with
    nonnegative variances keeps the mean and, up to the dropped
    eigen-directions, the covariance. *)
Theorem copy_cov n (A : mvar n) (U : 'M[C]_n) g :
  (1 < n)%N -> (n <= nk A)%N -> (forall j, 0 <= var A 0 j) ->
  U \is unitarymx -> cov A = U^t* *m diag_mx g *m U ->
  exists R, [/\ mvar_copy A = Some R, mean R = mean A,
     vectors R *m (vectors R)^t* = 1%:M,
     cov R = U^t* *m diag_mx (map_mx (keepf id) g) *m U &
     ((forall j, ~~ close0 (g 0 j)) -> cov R = cov A)].
Proof.
case: A => k v V m /= n0 nA v0 uU Hc.
have H : (scaled (Mvar v V m))^t* *m scaled (Mvar v V m) = U^t* *m diag_mx g *m U.
  rewrite scaled_gram -Hc /cov /=; congr (_ *m diag_mx _ *m _).
  by apply/rowP=> j; rewrite mxE ger0_norm.
have [mR oR rR _ _] := eig_rep m (gram_herm _) uU H.
set R := compress_rows _ in mR oR rR.
exists R; split=> //.
- rewrite /mvar_copy /mvar_init /= (negbTE (neq1 n0)).
  have -> : (k == 1)%N = false by apply/negbTE/neq1/(leq_trans n0).
  have -> : [forall j, v 0 j \is Num.real] by apply/forallP=> j; apply: ger0_real.
  by rewrite /do_square square_tall ?(ltnW n0) // do_compressE // neq1.
- exact: rep_cov rR.
- by move=> gc; rewrite (rep_cov rR) Hc; apply: udiag_eq => j; rewrite mxE keepf_nz.
Qed.

(** The store: what [load] reads after [update] and [alloc]. *)
Lemma load_nth n (s : store n) b :
  load s b = if (b < size s)%N then Some (nth (dummy n) s b) else None.
Proof. by rewrite /load; elim: s b => [|x s IH] [|b] //=. Qed.

Lemma load_update n (s : store n) a b o : (a < size s)%N ->
  load (update s a o) b = if b == a then Some o else load s b.
Proof.
move=> lt; rewrite !load_nth size_update // nth_set_nth /=.
by case: eqP => [->|]; rewrite ?lt.
Qed.

Lemma load_rcons n (s : store n) o : load (rcons s o) (size s) = Some o.
Proof. by rewrite /load -cats1 drop_size_cat. Qed.

Lemma load_mvar_some n (s : store n) a A :
  load_mvar s a = Some A -> exists2 o, load s a = Some o & to_mvar o = Some A.
Proof. by rewrite /load_mvar; case: (load s a) => //= o; exists o. Qed.

Lemma data_cov_herm n N (X : 'M[C]_(N, n)) bias :
  ((data_divisor N bias)^-1 *: ((centered X)^t* *m centered X))^t*
  = (data_divisor N bias)^-1 *: ((centered X)^t* *m centered X).
Proof.
rewrite adj_scale gram_herm conj_Creal // rpredV.
by case: bias; rewrite /data_divisor ?realn ?realz.
Qed.

(** [Mvar.from_data] on an array: the array is centred in place and the
    new object reads back with the sample mean and covariance. *)
Theorem from_data_exec n (s : store n) a N (X : 'M[C]_(N.+1, n)) bias (U : 'M[C]_n) g :
  (n != 1)%N -> load s a = Some (OData X) -> data_divisor N.+1 bias != 0 ->
  U \is unitarymx ->
  (data_divisor N.+1 bias)^-1 *: ((centered X)^t* *m centered X) = U^t* *m diag_mx g *m U ->
  let s1 := update s a (OData (centered X)) in
  exists R, [/\ exec (CFromData n a bias) s = (RetObj (size s), rcons s1 (of_mvar R)),
     load_mvar (rcons s1 (of_mvar R)) (size s) = Some R,
     mean R = data_mean X,
     vectors R *m (vectors R)^t* = 1%:M &
     cov R = U^t* *m diag_mx (map_mx (keepf id) g) *m U /\
     ((forall j, ~~ close0 (g 0 j)) ->
        cov R = (data_divisor N.+1 bias)^-1 *: ((centered X)^t* *m centered X))].
Proof.
move=> n1 La d0 uU Hc s1.
have [R [HR mR oR cR HR']] := from_cov_ok (data_mean X) n1 (data_cov_herm X bias) uU Hc.
have ss : size s1 = size s by rewrite size_update // (load_lt La).
exists R; split=> //.
- by rewrite /exec La /data_cov (negbTE d0) /= HR /= ss.
- by rewrite /load_mvar -ss load_rcons; apply: to_of_mvar.
- by split=> // gc; case: (HR' gc).
Qed.

(** The [cov] setter replaces only the object it is called on, keeping its
    mean. *)
Theorem set_cov_store n (s : store n) a (A : mvar n) (c U : 'M[C]_n) g : (n != 1)%N ->
  load_mvar s a = Some A -> c^t* = c -> U \is unitarymx ->
  c = U^t* *m diag_mx g *m U ->
  exists R, let s' := update s a (of_mvar R) in
  [/\ set_cov s a c = (RetNone, s'), load_mvar s' a = Some R,
     (forall b, b != a -> load s' b = load s b),
     mean R = mean A /\ cov R = U^t* *m diag_mx (map_mx (keepf id) g) *m U &
     ((forall j, ~~ close0 (g 0 j)) -> cov R = c)].
Proof.
move=> n1 LA cH uU Hc.
have [R [HR mR oR cR HR']] := from_cov_ok (mean A) n1 cH uU Hc.
have [o Lo _] := load_mvar_some LA.
have lt := load_lt Lo.
exists R; split=> //.
- by rewrite /set_cov /exec LA HR.
- by rewrite /load_mvar load_update // eqxx; apply: to_of_mvar.
- by move=> b /negbTE ba; rewrite load_update // ba.
- by move=> gc; case: (HR' gc).
Qed.


(** [groupby] and [isplit]. *)
Section IsplitFacts.

Variables (T : Type) (K : eqType) (fkey : T -> K).

Lemma groupby_from_flat tgt run s :
  flatten [seq kr.2 | kr <- groupby_from fkey tgt run s] = run ++ s.
Proof.
elim: s tgt run => [|y s IH] tgt run /=; first by rewrite cats0.
by case: eqP => _; rewrite /= IH ?cat_rcons.
Qed.

Lemma groupby_from_head tgt run s :
  exists r rest, groupby_from fkey tgt run s = (tgt, r) :: rest.
Proof.
elim: s tgt run => [|y s IH] tgt run /=; first by exists run, [::].
by case: eqP => _; [exact: IH | eexists _, _].
Qed.

Lemma groupby_from_inv tgt run s :
  (0 < size run)%N -> all (fun x => fkey x == tgt) run ->
  all (fun kr => (0 < size kr.2)%N && all (fun x => fkey x == kr.1) kr.2)
      (groupby_from fkey tgt run s)
  && sorted (fun p q : K * seq T => p.1 != q.1) (groupby_from fkey tgt run s).
Proof.
elim: s tgt run => [|y s IH] tgt run /= r0 rk; first by rewrite r0 rk.
case: eqP => [yt | /eqP yt].
  apply: IH; first by rewrite size_rcons.
  by rewrite all_rcons yt eqxx rk.
have := IH (fkey y) [:: y] isT; rewrite /= eqxx => /(_ isT) /andP [H1 H2].
rewrite /= r0 rk H1 /=.
have [r [rest E1]] := groupby_from_head (fkey y) [:: y] s.
by rewrite E1 /= in H2 *; rewrite eq_sym yt.
Qed.

Lemma groupby_inv s :
  [/\ flatten [seq kr.2 | kr <- groupby fkey s] = s,
      all (fun kr => (0 < size kr.2)%N && all (fun x => fkey x == kr.1) kr.2)
        (groupby fkey s) &
      sorted (fun p q : K * seq T => p.1 != q.1) (groupby fkey s)].
Proof.
case: s => [|x s] //=.
have := @groupby_from_inv (fkey x) [:: x] s isT.
rewrite /= eqxx => /(_ isT) /andP [H1 H2].
by split=> //; apply: groupby_from_flat.
Qed.

Lemma dget_dset (d : ddict T K) k k' v :
  dget (dset d k' v) k = if k' == k then v else dget d k.
Proof.
rewrite /dset /=; case: eqP => // /eqP kk.
elim: d => [|[k1 v1] d IH] //=.
case: ifP => [_ | /negbFE/eqP ->] /=; first by rewrite IH.
by rewrite (negbTE kk) IH.
Qed.

Lemma isplit_fold G (d : ddict T K) k :
  dget (foldl (fun d kr => dset d kr.1 (dget d kr.1 ++ kr.2)) d G) k
  = dget d k ++ flatten [seq kr.2 | kr <- G & kr.1 == k].
Proof.
elim: G d => [|[k1 r] G IH] d /=; first by rewrite cats0.
by rewrite IH dget_dset /=; case: eqP => [<-|_]; rewrite ?catA.
Qed.

Lemma filter_groups G k :
  all (fun kr : K * seq T => all (fun x => fkey x == kr.1) kr.2) G ->
  [seq x <- flatten [seq kr.2 | kr <- G] | fkey x == k]
  = flatten [seq kr.2 | kr <- G & kr.1 == k].
Proof.
elim: G => [|[k1 r] G IH] //= /andP [rk Hall].
rewrite filter_cat IH //; case: eqP => [<-|nk].
  by rewrite (all_filterP rk).
have nk' : (k1 == k) = false by apply/eqP.
suff -> : [seq x <- r | fkey x == k] = [::] by [].
elim: r rk {IH Hall} => [|y r IHr] //= /andP [/eqP yk rk].
by rewrite yk nk' IHr.
Qed.

(** [itertools.groupby] splits a sequence into its maximal runs of equal
    keys. *)
Theorem groupby_runs s :
  [/\ flatten [seq kr.2 | kr <- groupby fkey s] = s,
      all (fun kr => (0 < size kr.2)%N && all (fun x => fkey x == kr.1) kr.2)
        (groupby fkey s) &
      sorted (fun p q : K * seq T => p.1 != q.1) (groupby fkey s)].
Proof. exact: groupby_inv. Qed.

(** [isplit(sequence, fkey)[k]] is the sub-sequence of the items whose key
    is [k]. *)
Theorem isplit_get s k : dget (isplit fkey s) k = [seq x <- s | fkey x == k].
Proof.
rewrite /isplit isplit_fold /=.
have [fl ks _] := groupby_inv s.
rewrite -filter_groups ?fl //.
by apply: sub_all ks => kr /andP [].
Qed.

End IsplitFacts.







Lemma centered_const N n : centered (const_mx 1 : 'M[C]_(N.+1, n)) = 0.
Proof.
apply/matrixP=> i j; rewrite !mxE big_ord1 !mxE summxE.
under eq_bigr => k _ do rewrite !mxE.
by rewrite sumr_const card_ord mul1r mulVf ?pnatr_eq0 // subrr.
Qed.

Lemma adj1 n : (1%:M : 'M[C]_n)^t* = 1%:M.
Proof. by rewrite trmx1 map_mx1. Qed.

End Mvn.

(** ** Concrete instances

    The complex algebraic numbers [algC], with the spectral theorem as the
    eigensolver, in two dimensions. *)



(** C5: two one-dimensional distributions, of unit variance and means 0 and
    [atol]: [==] holds and the means differ. *)
Lemma C5_eq_tolerance_counterexample :
  let A := Mvar (ones algC 1) 1%:M 0 in
  let B := Mvar (ones algC 1) 1%:M (const_mx (atol algC)) in
  mvar_eq A B /\ mean A <> mean B.
Proof. exact: atol_shift. Qed.

Lemma square_keeps_gram_witness :
  let X := \matrix_(i < 1, j < 2) ((j == 0%N :> nat)%:R : algC) in
  let S := square (spectral_solver algC) X None in
  (svec S)^t* *m diag_mx (svar S) *m svec S = X^t* *m X.
Proof.
move=> X; apply: (square_keeps_gram (spectral_solver algC)); right=> i.
apply/negP=> /eqP /rowP /(_ 0); rewrite !mxE /= => /eqP.
by rewrite oner_eq0.
Defined.

Lemma do_square_cov_witness :
  let A := Mvar (ones algC 2) 1%:M 0 in
  cov (do_square (spectral_solver algC) A) = cov A
  /\ mean (do_square (spectral_solver algC) A) = mean A.
Proof.
move=> A; apply: (do_square_cov (spectral_solver algC)); last by left.
by move=> j; rewrite mxE ler01.
Defined.

Lemma transform_sq_witness :
  let A := Mvar (ones algC 1) 1%:M 0 in transform A *m transform A = cov A.
Proof. move=> A; apply: transform_sq; exact: (unitarymxP (unitarymx1 _ 1)). Defined.

Lemma compress_cov_witness :
  let A := Mvar (ones algC 2) 1%:M 0 in
  exists R, [/\ do_compress A = Some R,
    cov R = (vectors A)^t* *m diag_mx (map_mx (keepf id) (var A)) *m vectors A
    & forall j, ~~ close0 (var R 0 j)].
Proof. by move=> A; apply: compress_cov. Defined.



Lemma from_cov_cov_witness :
  exists R, [/\ from_cov (spectral_solver algC) (1%:M : 'M[algC]_2) 0 = Some R, mean R = 0,
     vectors R *m (vectors R)^t* = 1%:M,
     cov R = (1%:M)^t* *m diag_mx (map_mx (keepf id) (ones algC 2)) *m 1%:M &
     ((forall j, ~~ close0 (ones algC 2 0 j)) -> nk R = 2%N /\ cov R = 1%:M)].
Proof.
apply: (from_cov_cov (spectral_solver algC)).
- by [].
- exact: adj1.
- exact: unitarymx1.
- by rewrite udiag_id diag_ones.
Defined.

Lemma add_cov_witness :
  let A := Mvar (ones algC 2) 1%:M 0 in
  exists R, [/\ mvar_add (spectral_solver algC) A A = Some R, mean R = mean A + mean A,
     vectors R *m (vectors R)^t* = 1%:M,
     cov R = (1%:M)^t* *m diag_mx (map_mx (keepf id)
               (\row_j (ones algC 2 0 j + ones algC 2 0 j))) *m 1%:M &
     ((forall j, ~~ close0 ((\row_j (ones algC 2 0 j + ones algC 2 0 j)) 0 j)) ->
      cov R = cov A + cov A)].
Proof.
move=> A; apply: (add_cov (spectral_solver algC)).
- by [].
- by move=> j; rewrite mxE real1.
- by move=> j; rewrite mxE real1.
- exact: unitarymx1.
- exact: udiag_add.
Defined.

Lemma mul_scalar_cov_witness :
  let A := Mvar (ones algC 2) 1%:M 0 in
  exists R, [/\ mvar_mul (spectral_solver algC) A (OpScalar 2 (2%:R : algC)) = Some R,
     mvar_rmul (spectral_solver algC) (LScalar 2 (2%:R : algC)) A = inr (Some R),
     mean R = 2%:R *: mean A,
     cov R = (1%:M)^t* *m diag_mx (map_mx (keepf id) (\row_j (2%:R * ones algC 2 0 j)))
               *m 1%:M &
     ((forall j, ~~ close0 ((\row_j (2%:R * ones algC 2 0 j)) 0 j)) ->
      cov R = 2%:R *: cov A)].
Proof.
move=> A; apply: (mul_scalar_cov (spectral_solver algC)).
- by [].
- exact: realn.
- by move=> j; rewrite mxE real1.
- exact: unitarymx1.
- exact: udiag_scale.
Defined.

Lemma mul_zero_witness :
  exists R, [/\ mvar_mul (spectral_solver algC) (Mvar (ones algC 2) 1%:M 0)
                (OpScalar 2 (0 : algC)) = Some R, nk R = 0%N & mean R = 0].
Proof. by apply: (mul_zero (spectral_solver algC)). Defined.

Lemma pow_one_witness :
  exists R, [/\ mvar_pow (spectral_solver algC) (Mvar (ones algC 2) 1%:M 0) 1 = Some R,
     mean R = 0, vectors R *m (vectors R)^t* = 1%:M,
     cov R = (1%:M)^t* *m diag_mx (map_mx (keepf id) (ones algC 2)) *m 1%:M &
     ((forall j, ~~ close0 (ones algC 2 0 j)) -> cov R = cov (Mvar (ones algC 2) 1%:M 0))].
Proof.
apply: (pow_one (spectral_solver algC)).
- by [].
- exact: unitarymx1.
- by move=> j; rewrite mxE ler01.
Defined.

Lemma copy_cov_witness :
  let A := Mvar (ones algC 2) 1%:M 0 in
  exists R, [/\ mvar_copy (spectral_solver algC) A = Some R, mean R = mean A,
     vectors R *m (vectors R)^t* = 1%:M,
     cov R = (1%:M)^t* *m diag_mx (map_mx (keepf id) (ones algC 2)) *m 1%:M &
     ((forall j, ~~ close0 (ones algC 2 0 j)) -> cov R = cov A)].
Proof.
move=> A; apply: (copy_cov (spectral_solver algC)).
- by [].
- by [].
- by move=> j; rewrite mxE ler01.
- exact: unitarymx1.
- by [].
Defined.

Lemma from_data_exec_witness :
  let X := (const_mx 1 : 'M[algC]_(2, 2)) in
  let s1 := update [:: OData X] 0 (OData (centered X)) in
  exists R, [/\ exec (spectral_solver algC) (CFromData algC 2 0 false) [:: OData X]
                = (RetObj algC 1, rcons s1 (of_mvar R)),
     load_mvar (rcons s1 (of_mvar R)) 1 = Some R,
     mean R = data_mean X,
     vectors R *m (vectors R)^t* = 1%:M &
     cov R = (1%:M)^t* *m diag_mx (map_mx (keepf id) 0) *m 1%:M /\
     ((forall j, ~~ close0 ((0 : 'rV[algC]_2) 0 j)) ->
      cov R = (data_divisor algC 2 false)^-1 *: ((centered X)^t* *m centered X))].
Proof.
move=> X s1; apply: (from_data_exec (spectral_solver algC) (s := [:: OData X])).
- by [].
- by [].
- by rewrite /data_divisor rmorphB /= rmorph1 subr_eq0 pnatr_eq1.
- exact: unitarymx1.
- by rewrite centered_const udiag_id linear0 scaler0 linear0.
Defined.

Lemma set_cov_store_witness :
  let A := Mvar (ones algC 2) 1%:M 0 in
  exists R, let s' := update [:: of_mvar A] 0 (of_mvar R) in
  [/\ set_cov (spectral_solver algC) [:: of_mvar A] 0 1%:M = (RetNone algC, s'),
     load_mvar s' 0 = Some R,
     (forall b, b != 0%N -> load s' b = load [:: of_mvar A] b),
     mean R = mean A /\
     cov R = (1%:M)^t* *m diag_mx (map_mx (keepf id) (ones algC 2)) *m 1%:M &
     ((forall j, ~~ close0 (ones algC 2 0 j)) -> cov R = 1%:M)].
Proof.
move=> A; apply: (set_cov_store (spectral_solver algC) (A := A)).
- by [].
- exact: to_of_mvar.
- exact: adj1.
- exact: unitarymx1.
- by rewrite udiag_id diag_ones.
Defined.


